(** * CloudSecret: the reconciliation cycle of [controllers/cloudsecret_controller.go]

    A shallow embedding of [CloudSecretReconciler.Reconcile].  The reconciler
    talks to two collaborators, the Kubernetes client (Get, Create, Update,
    Delete) and the GCP secret manager (AccessSecretVersion).  The code is
    embedded as a program over the calls it makes; a handler gives the calls
    their answers and threads the collaborators' state.

    Properties that hold whatever the collaborators answer are stated for
    every handler.  Properties about what ends up persisted are stated against
    an in-memory object store with injectable I/O failures. *)

From stdpp Require Import gmap strings list fin_maps.
From Stdlib Require Import ZArith Lia.

Local Open Scope Z_scope.

(** ** Go values *)

(** [[]byte] *)
Abbreviation bytes := (list Byte.byte).

#[global] Instance byte_eq_dec : EqDecision Byte.byte := Byte.byte_eq_dec.

(** Two's complement wrap-around of a 64-bit signed integer. *)
Definition wrap64 (z : Z) : Z := (z + 2 ^ 63) `mod` 2 ^ 64 - 2 ^ 63.

(** [len] of a Go map. *)
Definition len {V} (m : gmap string V) : Z := Z.of_nat (size m).

Module time.
(** [time.Duration] is an [int64] count of nanoseconds. *)
Abbreviation Duration := Z (only parsing).
(** The conversion [time.Duration(x)] of an integer. *)
Definition Duration_of (x : Z) : Duration := wrap64 x.
(** [d * e] on [int64]. *)
Definition mul (d e : Duration) : Duration := wrap64 (d * e).
Definition Nanosecond : Duration := 1.
Definition Second : Duration := 1000000000.
End time.

(** Go's [error] values, as far as the reconciler can tell them apart: the API
    status reason decides [IsNotFound]. *)
Inductive StatusReason :=
| StatusReasonNotFound
| StatusReasonAlreadyExists
| StatusReasonConflict
| StatusReasonInternalError
| StatusReasonUnknown.

Record error := { Reason : StatusReason; Message : string }.

#[global] Instance StatusReason_eq_dec : EqDecision StatusReason.
Proof. solve_decision. Defined.
#[global] Instance error_eq_dec : EqDecision error.
Proof. solve_decision. Defined.

(** A call that returns [(T, error)], or fills [*T] and returns [error]. *)
Inductive result (T : Type) :=
| Ok (v : T)
| Err (err : error).
Arguments Ok {T} v.
Arguments Err {T} err.

(** ** The API objects *)

Module types.
Record NamespacedName := { Namespace : string; Name : string }.

#[global] Instance NamespacedName_eq_dec : EqDecision NamespacedName.
Proof. solve_decision. Defined.
#[global] Instance NamespacedName_countable : Countable NamespacedName.
Proof.
  refine (inj_countable' (λ k, (Namespace k, Name k))
                         (λ p, {| Namespace := p.1; Name := p.2 |}) _).
  by intros [??].
Defined.
End types.

Module metav1.
Record OwnerReference := { Kind : string; OwnerName : string; Controller : bool }.
Record ObjectMeta :=
  { Name : string;
    Namespace : string;
    ResourceVersion : string;
    OwnerReferences : list OwnerReference }.

#[global] Instance OwnerReference_eq_dec : EqDecision OwnerReference.
Proof. solve_decision. Defined.
#[global] Instance ObjectMeta_eq_dec : EqDecision ObjectMeta.
Proof. solve_decision. Defined.
End metav1.

(** [k8s.io/api/core/v1]: the child (managed) secret. *)
Module corev1.
Record Secret :=
  { ObjectMeta : metav1.ObjectMeta;
    Data : gmap string bytes;
    SecretType : string }.

(** [s.Data = d] *)
Definition set_Data (d : gmap string bytes) (s : Secret) : Secret :=
  {| ObjectMeta := ObjectMeta s; Data := d; SecretType := SecretType s |}.

(** The namespace and name an object is stored under. *)
Definition key (s : Secret) : types.NamespacedName :=
  {| types.Namespace := metav1.Namespace (ObjectMeta s);
     types.Name := metav1.Name (ObjectMeta s) |}.

#[global] Instance Secret_eq_dec : EqDecision Secret.
Proof. solve_decision. Defined.
End corev1.

(** [api/v1]: the CloudSecret custom resource (the desired secret). *)
Module secretsv1.
Record CloudSecretSpec :=
  { SyncPeriod : Z;
    Data : gmap string string }.
Record CloudSecret :=
  { ObjectMeta : metav1.ObjectMeta;
    Spec : CloudSecretSpec }.

Section Child.
(** The fixed naming transform from a CloudSecret's name to its child's. *)
Variable childName : string → string.

(** Modelled from the spec: [GetChildSecretKey] is declared in [api/v1], which
    is not among the sources.  The child's identity is "a deterministic
    function of identity (same namespace, a fixed naming transform of the
    name)". *)
Definition GetChildSecretKey (cs : CloudSecret) : types.NamespacedName :=
  {| types.Namespace := metav1.Namespace (ObjectMeta cs);
     types.Name := childName (metav1.Name (ObjectMeta cs)) |}.

(** Modelled from the spec: [InitChildSecret] is declared in [api/v1], which
    is not among the sources.  It "construct[s] an empty ManagedSecret owned by
    the DesiredSecret", at the child identity. *)
Definition InitChildSecret (cs : CloudSecret) : corev1.Secret :=
  {| corev1.ObjectMeta :=
       {| metav1.Name := childName (metav1.Name (ObjectMeta cs));
          metav1.Namespace := metav1.Namespace (ObjectMeta cs);
          metav1.ResourceVersion := "";
          metav1.OwnerReferences :=
            [ {| metav1.Kind := "CloudSecret";
                 metav1.OwnerName := metav1.Name (ObjectMeta cs);
                 metav1.Controller := true |} ] |};
     corev1.Data := ∅;
     corev1.SecretType := "Opaque" |}.
End Child.
End secretsv1.

(** [google.golang.org/genproto/googleapis/cloud/secretmanager/v1] *)
Module secrets.
Record SecretPayload := { Data : bytes }.
Record AccessSecretVersionRequest := { Name : string }.
Record AccessSecretVersionResponse :=
  { RespName : string;
    Payload : option SecretPayload }.

(** [GetData] is nil-safe: a nil payload has nil data. *)
Definition GetData (p : option SecretPayload) : bytes :=
  match p with
  | Some p => Data p
  | None => []
  end.
End secrets.

Module ctrl.
Record Request := { NamespacedName : types.NamespacedName }.
Record Result := { Requeue : bool; RequeueAfter : time.Duration }.
(** [ctrl.Result{}] *)
Definition Result_zero : Result := {| Requeue := false; RequeueAfter := 0 |}.
(** [result.RequeueAfter = d] *)
Definition set_RequeueAfter (d : time.Duration) (r : Result) : Result :=
  {| Requeue := Requeue r; RequeueAfter := d |}.
End ctrl.

Module client.
Definition IsNotFound (err : error) : bool :=
  bool_decide (Reason err = StatusReasonNotFound).

(** [client.IgnoreNotFound]: nil for a NotFound error, the error otherwise. *)
Definition IgnoreNotFound (err : option error) : option error :=
  match err with
  | Some e => if IsNotFound e then None else Some e
  | None => None
  end.
End client.

(** ** Programs over the collaborators' calls *)

(** The calls [Reconcile] makes through its receiver [r]: the embedded
    [client.Client], [r.GcpSecrets] and the logger. *)
Inductive Call :=
| GetCloudSecret (key : types.NamespacedName)
| GetSecret (key : types.NamespacedName)
| Create (obj : corev1.Secret)
| Update (obj : corev1.Secret)
| Delete (obj : corev1.Secret)
| AccessSecretVersion (req : secrets.AccessSecretVersionRequest)
| LogError (err : error) (msg : string) (keysAndValues : list string)
| LogInfo (msg : string).

(** What each call hands back.  [Get] fills the object it is given; [Create]
    is given a pointer and writes the stored object back through it; the
    objects given to [Update] and [Delete] are not read again. *)
Definition Resp (c : Call) : Type :=
  match c with
  | GetCloudSecret _ => result secretsv1.CloudSecret
  | GetSecret _ => result corev1.Secret
  | Create _ => result corev1.Secret
  | Update _ => option error
  | Delete _ => option error
  | AccessSecretVersion _ => result secrets.AccessSecretVersionResponse
  | LogError _ _ _ => unit
  | LogInfo _ => unit
  end.

Inductive Prog (T : Type) : Type :=
| Ret (x : T)
| Do (c : Call) (k : Resp c → Prog T).
Arguments Ret {T} x.
Arguments Do {T} c k.

Fixpoint bind {A B} (m : Prog A) (f : A → Prog B) : Prog B :=
  match m with
  | Ret x => f x
  | Do c k => Do c (λ r, bind (k r) f)
  end.

#[global] Instance Prog_ret : MRet Prog := @Ret.
#[global] Instance Prog_bind : MBind Prog := λ A B f m, bind m f.

Definition call (c : Call) : Prog (Resp c) := Do c Ret.

(** A performed call together with its answer. *)
Definition Event : Type := { c : Call & Resp c }.
Definition ev (c : Call) (r : Resp c) : Event := existT c r.

(** A handler answers calls and threads the collaborators' state. *)
Definition Handler (S : Type) : Type := ∀ c : Call, S → Resp c * S.

(** Running a program: its value, the final state, and the calls made. *)
Fixpoint run {S T} (h : Handler S) (p : Prog T) (s : S) : T * S * list Event :=
  match p with
  | Ret x => (x, s, [])
  | Do c k =>
      let rs := h c s in
      let out := run h (k rs.1) rs.2 in
      (out.1.1, out.1.2, existT c rs.1 :: out.2)
  end.

(** [replay h s tr s'] : the answers recorded in [tr] are the ones the handler
    gives when the calls are made in order from state [s], ending in [s']. *)
Fixpoint replay {S} (h : Handler S) (s : S) (tr : list Event) (s' : S) : Prop :=
  match tr with
  | [] => s' = s
  | existT c r :: tr => (h c s).1 = r ∧ replay h (h c s).2 tr s'
  end.

(** Accessors for the outcome of running [Reconcile]. *)
Definition res_of {S} (o : (ctrl.Result * option error) * S * list Event)
    : ctrl.Result := o.1.1.1.
Definition err_of {S} (o : (ctrl.Result * option error) * S * list Event)
    : option error := o.1.1.2.
Definition state_of {S} (o : (ctrl.Result * option error) * S * list Event)
    : S := o.1.2.
Definition trace_of {S} (o : (ctrl.Result * option error) * S * list Event)
    : list Event := o.2.

(** ** The reconciler *)

Definition defaultRetryTime : time.Duration :=
  time.mul (time.Duration_of 5) time.Second.

(** Go leaves the iteration order of [range] over a map unspecified: any
    enumeration of the entries, each exactly once. *)
Record MapRange :=
  { range :> gmap string string → list (string * string);
    range_perm : ∀ m, range m ≡ₚ map_to_list m }.

Definition canonical_range : MapRange :=
  {| range := map_to_list; range_perm := λ m, reflexivity (map_to_list m) |}.

Section Reconciler.
Variable childName : string → string.
Variable rng : MapRange.

(** The loop of lines 79-88, over the entries in iteration order, with the
    loop-carried [getSecretFail] and [childSecret.Data]. *)
Fixpoint resolveAll (entries : list (string * string))
    (getSecretFail : bool) (data : gmap string bytes)
    : Prog (bool * gmap string bytes) :=
  match entries with
  | [] => mret (getSecretFail, data)
  | (k, v) :: entries =>
      access ← call (AccessSecretVersion {| secrets.Name := v |});
      match access with
      | Err err =>
          _ ← call (LogError err "unable to access secret" ["secret_path"; v]);
          resolveAll entries true data
      | Ok access =>
          resolveAll entries getSecretFail
            (<[k := secrets.GetData (secrets.Payload access)]> data)
      end
  end.

(** Lines 59-68: fetch the child secret, creating it when the fetch fails. *)
Definition ensureChild (cloudSecret : secretsv1.CloudSecret)
    : Prog (result corev1.Secret) :=
  got ← call (GetSecret (secretsv1.GetChildSecretKey childName cloudSecret));
  match got with
  | Ok childSecret => mret (Ok childSecret)
  | Err _ =>
      _ ← call (LogInfo "creating child secret");
      created ← call (Create (secretsv1.InitChildSecret childName cloudSecret));
      match created with
      | Err err =>
          _ ← call (LogError err "unable to create child secret" []);
          mret (Err err)
      | Ok childSecret => mret (Ok childSecret)
      end
  end.

(** Line 56: [time.Duration(cloudSecret.Spec.SyncPeriod) * time.Second]. *)
Definition recDelay_of (cloudSecret : secretsv1.CloudSecret) : time.Duration :=
  time.mul (time.Duration_of (secretsv1.SyncPeriod (secretsv1.Spec cloudSecret)))
           time.Second.

(** Lines 90-94. *)
Definition accelerate (getSecretFail : bool) (recDelay : time.Duration)
    (result : ctrl.Result) : ctrl.Result :=
  if getSecretFail && bool_decide (recDelay > defaultRetryTime)
  then ctrl.set_RequeueAfter defaultRetryTime result
  else result.

Definition Reconcile (req : ctrl.Request) : Prog (ctrl.Result * option error) :=
  fetched ← call (GetCloudSecret (ctrl.NamespacedName req));
  match fetched with
  | Err err =>
      _ ← call (LogError err "unable to fetch cloud secret" []);
      mret (ctrl.Result_zero, client.IgnoreNotFound (Some err))
  | Ok cloudSecret =>
      let recDelay := recDelay_of cloudSecret in
      let result := {| ctrl.Requeue := false; ctrl.RequeueAfter := recDelay |} in
      ensured ← ensureChild cloudSecret;
      match ensured with
      | Err err => mret (ctrl.Result_zero, Some err)
      | Ok childSecret =>
          if bool_decide (len (secretsv1.Data (secretsv1.Spec cloudSecret)) = 0)
          then
            _ ← call (LogInfo "empty cloud secret");
            mret (result, None)
          else
            '(getSecretFail, data) ←
              resolveAll (rng (secretsv1.Data (secretsv1.Spec cloudSecret))) false ∅;
            let childSecret := corev1.set_Data data childSecret in
            let result := accelerate getSecretFail recDelay result in
            if bool_decide (len (corev1.Data childSecret) = 0)
            then
              deleted ← call (Delete childSecret);
              match deleted with
              | Some err =>
                  _ ← call (LogError err "unable to delete child secret" []);
                  mret (ctrl.Result_zero, Some err)
              | None => mret (result, None)
              end
            else
              _ ← call (LogInfo "updating child secret");
              updated ← call (Update childSecret);
              match updated with
              | Some err =>
                  _ ← call (LogError err "unable to update child secret" []);
                  mret (ctrl.Result_zero, Some err)
              | None => mret (result, None)
              end
      end
  end.
End Reconciler.

Arguments ensureChild : simpl never.

(** ** Reading a trace *)

Definition is_write (c : Call) : bool :=
  match c with
  | Create _ | Update _ | Delete _ => true
  | _ => false
  end.

(** The store writes of a trace, in order. *)
Definition store_writes (tr : list Event) : list Call :=
  filter (λ c, is_write c = true) (projT1 <$> tr).

Definition access_of (e : Event)
    : option (string * result secrets.AccessSecretVersionResponse) :=
  match e with
  | existT c r =>
      match c return
        Resp c → option (string * result secrets.AccessSecretVersionResponse) with
      | AccessSecretVersion req => λ r, Some (secrets.Name req, r)
      | _ => λ _, None
      end r
  end.

(** The resolver calls of a trace, in order: the name asked for and the answer. *)
Definition resolver_calls (tr : list Event)
    : list (string * result secrets.AccessSecretVersionResponse) :=
  omap access_of tr.

Arguments store_writes : simpl never.
Arguments resolver_calls : simpl never.

(** ** One resolution attempt per entry *)

(** An entry of the references together with the resolver's answer to it. *)
Abbreviation Attempt :=
  ((string * string) * result secrets.AccessSecretVersionResponse)%type.

(** The resolver call of an attempt, as [resolver_calls] reports it. *)
Definition call_of (a : Attempt)
    : string * result secrets.AccessSecretVersionResponse := (a.1.2, a.2).

Definition resolve_step (acc : bool * gmap string bytes) (a : Attempt)
    : bool * gmap string bytes :=
  match a.2 with
  | Err _ => (true, acc.2)
  | Ok access => (acc.1, <[a.1.1 := secrets.GetData (secrets.Payload access)]> acc.2)
  end.

(** The flag and the working payload after the given attempts. *)
Definition resolve_result (attempts : list Attempt) (acc : bool * gmap string bytes)
    : bool * gmap string bytes :=
  foldl resolve_step acc attempts.

Definition attempt_events (a : Attempt) : list Event :=
  ev (AccessSecretVersion {| secrets.Name := a.1.2 |}) a.2 ::
  match a.2 with
  | Err err =>
      [ev (LogError err "unable to access secret" ["secret_path"; a.1.2]) tt]
  | Ok _ => []
  end.

(** The calls the loop performs for the given attempts. *)
Definition resolve_trace (attempts : list Attempt) : list Event :=
  attempts ≫= attempt_events.

(** ** The paths through one cycle

    Every run of [Reconcile] follows one of five paths.  [Ensured] describes
    lines 59-68 and [Outcome] the whole cycle: what is returned, and the calls
    made with their answers.  [Reconcile_outcome] below proves that every run
    is one of these. *)

Section Paths.
Variable childName : string → string.
Variable rng : MapRange.

(** [ctrl.Result{RequeueAfter: recDelay}] of line 57. *)
Definition base_result (cs : secretsv1.CloudSecret) : ctrl.Result :=
  {| ctrl.Requeue := false; ctrl.RequeueAfter := recDelay_of cs |}.

Inductive Ensured (cs : secretsv1.CloudSecret)
    : result corev1.Secret → list Event → Prop :=
| ensured_found childSecret :
    Ensured cs (Ok childSecret)
      [ev (GetSecret (secretsv1.GetChildSecretKey childName cs)) (Ok childSecret)]
| ensured_created e0 childSecret :
    Ensured cs (Ok childSecret)
      [ev (GetSecret (secretsv1.GetChildSecretKey childName cs)) (Err e0);
       ev (LogInfo "creating child secret") tt;
       ev (Create (secretsv1.InitChildSecret childName cs)) (Ok childSecret)]
| ensured_failed e0 err :
    Ensured cs (Err err)
      [ev (GetSecret (secretsv1.GetChildSecretKey childName cs)) (Err e0);
       ev (LogInfo "creating child secret") tt;
       ev (Create (secretsv1.InitChildSecret childName cs)) (Err err);
       ev (LogError err "unable to create child secret" []) tt].

(** How a cycle ends once the closing [Delete] or [Update] has answered. *)
Definition closing (answer : option error) (what : string) (result : ctrl.Result)
    : (ctrl.Result * option error) * list Event :=
  match answer with
  | Some err => ((ctrl.Result_zero, Some err), [ev (LogError err what []) tt])
  | None => ((result, None), [])
  end.

Inductive Outcome (req : ctrl.Request)
    : ctrl.Result * option error → list Event → Prop :=
| out_no_parent err :
    Outcome req (ctrl.Result_zero, client.IgnoreNotFound (Some err))
      [ev (GetCloudSecret (ctrl.NamespacedName req)) (Err err);
       ev (LogError err "unable to fetch cloud secret" []) tt]
| out_no_child cs err pre :
    Ensured cs (Err err) pre →
    Outcome req (ctrl.Result_zero, Some err)
      (ev (GetCloudSecret (ctrl.NamespacedName req)) (Ok cs) :: pre)
| out_empty cs childSecret pre :
    Ensured cs (Ok childSecret) pre →
    len (secretsv1.Data (secretsv1.Spec cs)) = 0 →
    Outcome req (base_result cs, None)
      (ev (GetCloudSecret (ctrl.NamespacedName req)) (Ok cs) :: pre
         ++ [ev (LogInfo "empty cloud secret") tt])
| out_delete cs childSecret pre attempts answer :
    Ensured cs (Ok childSecret) pre →
    len (secretsv1.Data (secretsv1.Spec cs)) ≠ 0 →
    attempts.*1 = rng (secretsv1.Data (secretsv1.Spec cs)) →
    len (resolve_result attempts (false, ∅)).2 = 0 →
    let acc := resolve_result attempts (false, ∅) in
    let fin := closing answer "unable to delete child secret"
                 (accelerate acc.1 (recDelay_of cs) (base_result cs)) in
    Outcome req fin.1
      (ev (GetCloudSecret (ctrl.NamespacedName req)) (Ok cs) :: pre
         ++ resolve_trace attempts
         ++ ev (Delete (corev1.set_Data acc.2 childSecret)) answer :: fin.2)
| out_update cs childSecret pre attempts answer :
    Ensured cs (Ok childSecret) pre →
    len (secretsv1.Data (secretsv1.Spec cs)) ≠ 0 →
    attempts.*1 = rng (secretsv1.Data (secretsv1.Spec cs)) →
    len (resolve_result attempts (false, ∅)).2 ≠ 0 →
    let acc := resolve_result attempts (false, ∅) in
    let fin := closing answer "unable to update child secret"
                 (accelerate acc.1 (recDelay_of cs) (base_result cs)) in
    Outcome req fin.1
      (ev (GetCloudSecret (ctrl.NamespacedName req)) (Ok cs) :: pre
         ++ resolve_trace attempts
         ++ ev (LogInfo "updating child secret") tt
         :: ev (Update (corev1.set_Data acc.2 childSecret)) answer :: fin.2).
End Paths.

(** ** An in-memory object store and resolver

    The State Store and the Secret Resolver are collaborators outside the
    repository.  This handler gives them their interface behaviour: objects are
    stored under their namespace and name; [Get] of an absent object is
    NotFound; [Create] refuses an existing object; [Update] and [Delete] need
    one; the resolver answers by name.  [fault] injects I/O failures: a call it
    maps to an error fails with that error and changes nothing. *)
Record World :=
  { cloudSecrets : gmap types.NamespacedName secretsv1.CloudSecret;
    childSecrets : gmap types.NamespacedName corev1.Secret;
    gcpSecrets : string → result secrets.AccessSecretVersionResponse;
    fault : Call → option error }.

Definition set_childSecrets
    (f : gmap types.NamespacedName corev1.Secret → gmap types.NamespacedName corev1.Secret)
    (w : World) : World :=
  {| cloudSecrets := cloudSecrets w;
     childSecrets := f (childSecrets w);
     gcpSecrets := gcpSecrets w;
     fault := fault w |}.

(** The same objects and resolver under another failure policy: I/O failures
    are transient, the next cycle need not meet the same ones. *)
Definition with_fault (flt : Call → option error) (w : World) : World :=
  {| cloudSecrets := cloudSecrets w;
     childSecrets := childSecrets w;
     gcpSecrets := gcpSecrets w;
     fault := flt |}.

Definition errNotFound : error :=
  {| Reason := StatusReasonNotFound; Message := "not found" |}.
Definition errAlreadyExists : error :=
  {| Reason := StatusReasonAlreadyExists; Message := "already exists" |}.

Definition store_get {T} (m : gmap types.NamespacedName T)
    (key : types.NamespacedName) (injected : option error) : result T :=
  match injected with
  | Some err => Err err
  | None =>
      match m !! key with
      | Some obj => Ok obj
      | None => Err errNotFound
      end
  end.

Definition store_create (obj : corev1.Secret) (w : World)
    : result corev1.Secret * World :=
  match fault w (Create obj) with
  | Some err => (Err err, w)
  | None =>
      match childSecrets w !! corev1.key obj with
      | Some _ => (Err errAlreadyExists, w)
      | None => (Ok obj, set_childSecrets <[corev1.key obj := obj]> w)
      end
  end.

Definition store_update (obj : corev1.Secret) (w : World) : option error * World :=
  match fault w (Update obj) with
  | Some err => (Some err, w)
  | None =>
      match childSecrets w !! corev1.key obj with
      | Some _ => (None, set_childSecrets <[corev1.key obj := obj]> w)
      | None => (Some errNotFound, w)
      end
  end.

Definition store_delete (obj : corev1.Secret) (w : World) : option error * World :=
  match fault w (Delete obj) with
  | Some err => (Some err, w)
  | None =>
      match childSecrets w !! corev1.key obj with
      | Some _ => (None, set_childSecrets (delete (corev1.key obj)) w)
      | None => (Some errNotFound, w)
      end
  end.

Definition apiserver : Handler World :=
  λ c,
    match c return World → Resp c * World with
    | GetCloudSecret key =>
        λ w, (store_get (cloudSecrets w) key (fault w (GetCloudSecret key)), w)
    | GetSecret key =>
        λ w, (store_get (childSecrets w) key (fault w (GetSecret key)), w)
    | Create obj => store_create obj
    | Update obj => store_update obj
    | Delete obj => store_delete obj
    | AccessSecretVersion req => λ w, (gcpSecrets w (secrets.Name req), w)
    | LogError _ _ _ => λ w, (tt, w)
    | LogInfo _ => λ w, (tt, w)
    end.

(** One reconciliation cycle against the store: what [Reconcile] returns, the
    store it leaves, and the calls it made. *)
Definition cycle (childName : string → string) (rng : MapRange)
    (req : ctrl.Request) (w : World)
    : (ctrl.Result * option error) * World * list Event :=
  run apiserver (Reconcile childName rng req) w.

(** The payload of the managed secret of [cs], if the store holds one. *)
Definition managed_payload (childName : string → string)
    (cs : secretsv1.CloudSecret) (w : World) : option (gmap string bytes) :=
  corev1.Data <$> childSecrets w !! secretsv1.GetChildSecretKey childName cs.

(** *** One cycle against the store, in closed form

    [reconcile_world] is what [cycle_world] below proves a cycle to return and
    to leave behind; it is used to reason about consecutive cycles. *)

(** The entries with the answers the resolver gives. *)
Definition answered (gcp : string → result secrets.AccessSecretVersionResponse)
    (entries : list (string * string)) : list Attempt :=
  (λ kv, (kv, gcp kv.2)) <$> entries.

(** What resolves, key by key. *)
Definition resolved_payload
    (gcp : string → result secrets.AccessSecretVersionResponse)
    (refs : gmap string string) : gmap string bytes :=
  omap (λ v, match gcp v with
             | Ok access => Some (secrets.GetData (secrets.Payload access))
             | Err _ => None
             end) refs.

Definition ensure_world (childName : string → string)
    (cs : secretsv1.CloudSecret) (w : World) : result corev1.Secret * World :=
  let key := secretsv1.GetChildSecretKey childName cs in
  match store_get (childSecrets w) key (fault w (GetSecret key)) with
  | Ok childSecret => (Ok childSecret, w)
  | Err _ => store_create (secretsv1.InitChildSecret childName cs) w
  end.

Definition reconcile_world (childName : string → string)
    (req : ctrl.Request) (w : World) : option error * World :=
  let key := ctrl.NamespacedName req in
  match store_get (cloudSecrets w) key (fault w (GetCloudSecret key)) with
  | Err err => (client.IgnoreNotFound (Some err), w)
  | Ok cs =>
      match ensure_world childName cs w with
      | (Err err, w1) => (Some err, w1)
      | (Ok childSecret, w1) =>
          let refs := secretsv1.Data (secretsv1.Spec cs) in
          if decide (refs = ∅) then (None, w1)
          else
            let payload := resolved_payload (gcpSecrets w1) refs in
            if decide (payload = ∅)
            then store_delete (corev1.set_Data payload childSecret) w1
            else store_update (corev1.set_Data payload childSecret) w1
      end
  end.

Arguments store_get : simpl never.
Arguments store_create : simpl never.
Arguments store_update : simpl never.
Arguments store_delete : simpl never.

(** ** Failures in a trace *)

(** The error a store call was answered with, for the calls whose error
    [Reconcile] hands back: the parent lookup and the three writes.  (The error
    of the child lookup is only tested, at line 61.) *)
Definition failure_of (e : Event) : option error :=
  match e with
  | existT c r =>
      match c return Resp c → option error with
      | GetCloudSecret _ => λ r, match r with Err err => Some err | Ok _ => None end
      | Create _ => λ r, match r with Err err => Some err | Ok _ => None end
      | Update _ => λ r, r
      | Delete _ => λ r, r
      | _ => λ _, None
      end r
  end.

Definition store_failures (tr : list Event) : list error := omap failure_of tr.

(** The resolution failures a trace logs: the secret path and the error of
    each [log.Error(err, "unable to access secret", "secret_path", v)]. *)
Definition logged_of (e : Event) : option (string * error) :=
  match e with
  | existT c _ =>
      match c with
      | LogError err "unable to access secret" ["secret_path"; v] => Some (v, err)
      | _ => None
      end
  end.

Definition logged_failures (tr : list Event) : list (string * error) :=
  omap logged_of tr.

(** The resolver calls that failed: the name asked for and the error. *)
Definition failed_calls
    (calls : list (string * result secrets.AccessSecretVersionResponse))
    : list (string * error) :=
  omap (λ c, match c.2 with Err err => Some (c.1, err) | Ok _ => None end) calls.

(** The answer the resolver behind [h] gives for [name] in state [s]. *)
Definition answers_in {S} (h : Handler S) (s : S) (name : string)
    : result secrets.AccessSecretVersionResponse :=
  (h (AccessSecretVersion {| secrets.Name := name |}) s).1.

(** Another iteration order: the entries backwards. *)
Definition reversed_range : MapRange :=
  {| range := λ m, reverse (map_to_list m);
     range_perm := λ m, reverse_Permutation (map_to_list m) |}.

(** The child secrets a cycle that meets no injected failure leaves, for a
    found parent [cs]: the child is looked up or created, and unless there are
    no references the stored object of its name is deleted or replaced
    ([reconcile_world_clean] below). *)
Definition settled (childName : string → string) (cs : secretsv1.CloudSecret)
    (gcp : string → result secrets.AccessSecretVersionResponse)
    (children : gmap types.NamespacedName corev1.Secret)
    : gmap types.NamespacedName corev1.Secret :=
  let key := secretsv1.GetChildSecretKey childName cs in
  let refs := secretsv1.Data (secretsv1.Spec cs) in
  let payload := resolved_payload gcp refs in
  let ensured :=
    match children !! key with
    | Some childSecret => (childSecret, children)
    | None =>
        (secretsv1.InitChildSecret childName cs,
         <[key := secretsv1.InitChildSecret childName cs]> children)
    end in
  if decide (refs = ∅) then ensured.2
  else
    match ensured.2 !! corev1.key ensured.1 with
    | None => ensured.2
    | Some _ =>
        if decide (payload = ∅)
        then delete (corev1.key ensured.1) ensured.2
        else <[corev1.key ensured.1 := corev1.set_Data payload ensured.1]> ensured.2
    end.

(** ** The scenarios of the specification, as concrete stores *)

Module Scenario.
Definition childName (n : string) : string := n.
Definition meta (n : string) : metav1.ObjectMeta :=
  {| metav1.Name := n; metav1.Namespace := "default";
     metav1.ResourceVersion := ""; metav1.OwnerReferences := [] |}.
Definition key (n : string) : types.NamespacedName :=
  {| types.Namespace := "default"; types.Name := n |}.
Definition req : ctrl.Request := {| ctrl.NamespacedName := key "cs" |}.
Definition b (s : string) : bytes := String.list_byte_of_string s.
Definition payload (s : string) : secrets.AccessSecretVersionResponse :=
  {| secrets.RespName := "";
     secrets.Payload := Some {| secrets.Data := b s |} |}.

Definition ioError : error :=
  {| Reason := StatusReasonInternalError; Message := "i/o timeout" |}.
Definition unavailable : error :=
  {| Reason := StatusReasonUnknown; Message := "unavailable" |}.

(** Failure policies: none, or every call of one kind fails with [ioError]. *)
Definition no_fault : Call → option error := λ _, None.
Definition fail_child_lookup : Call → option error :=
  λ c, match c with GetSecret _ => Some ioError | _ => None end.
Definition fail_create : Call → option error :=
  λ c, match c with Create _ => Some ioError | _ => None end.
Definition fail_update : Call → option error :=
  λ c, match c with Update _ => Some ioError | _ => None end.
Definition fail_delete : Call → option error :=
  λ c, match c with Delete _ => Some ioError | _ => None end.

Definition desired (period : Z) (refs : gmap string string) : secretsv1.CloudSecret :=
  {| secretsv1.ObjectMeta := meta "cs";
     secretsv1.Spec := {| secretsv1.SyncPeriod := period; secretsv1.Data := refs |} |}.
Definition managed (data : gmap string bytes) : corev1.Secret :=
  {| corev1.ObjectMeta := meta "cs"; corev1.Data := data; corev1.SecretType := "Opaque" |}.

(** The resolver knows [ref1] and [ra], and fails on everything else. *)
Definition gcp (name : string) : result secrets.AccessSecretVersionResponse :=
  if decide (name = "ref1") then Ok (payload "p1")
  else if decide (name = "ra") then Ok (payload "new")
  else Err unavailable.

Definition world (parent : option secretsv1.CloudSecret)
    (child : option corev1.Secret) (flt : Call → option error) : World :=
  {| cloudSecrets := from_option (λ cs, {[ key "cs" := cs ]}) ∅ parent;
     childSecrets := from_option (λ s, {[ key "cs" := s ]}) ∅ child;
     gcpSecrets := gcp;
     fault := flt |}.

Definition one_ref : secretsv1.CloudSecret := desired 60 {[ "db" := "ref1" ]}.
Definition bad_ref : secretsv1.CloudSecret := desired 60 {[ "db" := "bad" ]}.
Definition two_refs : secretsv1.CloudSecret :=
  desired 60 {[ "a" := "ra"; "b" := "rb" ]}.
Definition no_refs : secretsv1.CloudSecret := desired 60 ∅.
Definition old_child : corev1.Secret :=
  managed {[ "a" := b "old"; "b" := b "old" ]}.

(** Scenarios A to D of the specification. *)
Definition scenarioA : World := world (Some one_ref) None no_fault.
Definition scenarioB : World := world (Some bad_ref) None no_fault.
Definition scenarioC : World := world (Some two_refs) (Some old_child) no_fault.
Definition scenarioD : World := world None None no_fault.

(** The same stores under an I/O failure. *)
Definition lookup_fails : World := world (Some one_ref) None fail_child_lookup.
Definition create_fails : World := world (Some no_refs) None fail_create.
Definition update_fails : World := world (Some one_ref) None fail_update.
Definition delete_fails : World := world (Some bad_ref) None fail_delete.
(** No references, and a child that already holds data. *)
Definition no_refs_found : World := world (Some no_refs) (Some old_child) no_fault.
(** No reference resolves, and a child that already holds data. *)
Definition stale_child : World := world (Some bad_ref) (Some old_child) no_fault.

Definition run_cycle (w : World) :=
  cycle childName canonical_range req w.
End Scenario.

(** ** Tactics *)

(** Case analysis on membership in an explicit list. *)
Ltac elem_cases H :=
  repeat match type of H with
  | _ ∈ [] => apply elem_of_nil in H; destruct H
  | _ ∈ _ :: _ =>
      apply elem_of_cons in H; destruct H as [H|H]; [try discriminate H|]
  end.

(** Membership in an explicit list, by position. *)
Ltac elem_solve := repeat first [left | right].

(** A closed decidable proposition, by evaluation. *)
Ltac by_compute := vm_compute; first [reflexivity | exact I | discriminate | done].

(** * Facts *)

Lemma len_zero {V} (m : gmap string V) : len m = 0 ↔ m = ∅.
Proof. unfold len. rewrite <- map_size_empty_iff. lia. Qed.

(** ** Running programs *)

Section Run.
Context {S : Type} (h : Handler S).

Lemma replay_app s tr1 tr2 s' :
  replay h s (tr1 ++ tr2) s' ↔ ∃ s1, replay h s tr1 s1 ∧ replay h s1 tr2 s'.
Proof.
  revert s. induction tr1 as [|[c r] tr1 IH]; intros s; cbn.
  - split; [by eauto|]. by intros (s1 & -> & ?).
  - rewrite IH. split.
    + intros (Hr & s1 & H1 & H2). by exists s1.
    + intros (s1 & (Hr & H1) & H2). split; [done|]. by exists s1.
Qed.

(** The trace of a run records the handler's own answers. *)
Lemma run_replay {T} (p : Prog T) s :
  replay h s (run h p s).2 (run h p s).1.2.
Proof.
  revert s. induction p as [x|c k IH]; intros s; cbn; [done|].
  split; [done|apply IH].
Qed.

Lemma run_bind {A B} (m : Prog A) (f : A → Prog B) (s : S) :
  run h (bind m f) s =
    ((run h (f (run h m s).1.1) (run h m s).1.2).1,
     (run h m s).2 ++ (run h (f (run h m s).1.1) (run h m s).1.2).2).
Proof.
  revert s.
  induction m as [x|c k IH]; intros s; cbn.
  - by destruct (run h (f x) s) as [[??]?].
  - rewrite IH; cbn. by destruct (run h (f _) _) as [[??]?].
Qed.

Lemma run_mbind {A B} (m : Prog A) (f : A → Prog B) (s : S) :
  run h (m ≫= f) s =
    ((run h (f (run h m s).1.1) (run h m s).1.2).1,
     (run h m s).2 ++ (run h (f (run h m s).1.1) (run h m s).1.2).2).
Proof. apply run_bind. Qed.

(** The loop asks the resolver once per entry, in order, whatever the earlier
    answers were, and folds the answers into the flag and the payload. *)
Lemma resolveAll_run entries getSecretFail data s :
  ∃ attempts : list Attempt,
    attempts.*1 = entries ∧
    (run h (resolveAll entries getSecretFail data) s).1.1
      = resolve_result attempts (getSecretFail, data) ∧
    (run h (resolveAll entries getSecretFail data) s).2 = resolve_trace attempts.
Proof.
  revert getSecretFail data s.
  induction entries as [|[k v] entries IH]; intros f d s.
  - by exists [].
  - cbn.
    destruct (h (AccessSecretVersion {| secrets.Name := v |}) s) as [[a|e] s1] eqn:Hh; cbn.
    + destruct (IH f (<[k := secrets.GetData (secrets.Payload a)]> d) s1)
        as (atts & Hfst & Hres & Htr).
      exists ((k, v, Ok a) :: atts). cbn. rewrite Hfst, Hres, Htr. done.
    + destruct (h (LogError e "unable to access secret" ["secret_path"; v]) s1)
        as [[] s2] eqn:Hl; cbn.
      destruct (IH true d s2) as (atts & Hfst & Hres & Htr).
      exists ((k, v, Err e) :: atts). cbn. rewrite Hfst, Hres, Htr. done.
Qed.
End Run.

(** ** Traces *)

Lemma resolver_calls_nil : resolver_calls [] = [].
Proof. done. Qed.

Lemma resolver_calls_cons e tr :
  resolver_calls (e :: tr) =
    match access_of e with
    | Some x => x :: resolver_calls tr
    | None => resolver_calls tr
    end.
Proof. done. Qed.

Lemma resolver_calls_app tr1 tr2 :
  resolver_calls (tr1 ++ tr2) = resolver_calls tr1 ++ resolver_calls tr2.
Proof. apply omap_app. Qed.

Lemma store_writes_nil : store_writes [] = [].
Proof. done. Qed.

Lemma store_writes_cons (e : Event) tr :
  store_writes (e :: tr) =
    if is_write (projT1 e) then projT1 e :: store_writes tr else store_writes tr.
Proof.
  unfold store_writes. rewrite fmap_cons.
  destruct (is_write (projT1 e)) eqn:H.
  - by rewrite filter_cons_True.
  - rewrite filter_cons_False; [done|]. by rewrite H.
Qed.

Lemma store_writes_app tr1 tr2 :
  store_writes (tr1 ++ tr2) = store_writes tr1 ++ store_writes tr2.
Proof. unfold store_writes. by rewrite fmap_app, filter_app. Qed.

Lemma resolver_calls_resolve_trace (attempts : list Attempt) :
  resolver_calls (resolve_trace attempts) = call_of <$> attempts.
Proof.
  induction attempts as [|[[k v] [a|e]] attempts IH]; [done|..].
  - change (resolve_trace ((k, v, Ok a) :: attempts))
      with (ev (AccessSecretVersion {| secrets.Name := v |}) (Ok a)
            :: resolve_trace attempts).
    rewrite resolver_calls_cons, fmap_cons. cbn. by rewrite IH.
  - change (resolve_trace ((k, v, Err e) :: attempts))
      with (ev (AccessSecretVersion {| secrets.Name := v |}) (Err e)
            :: ev (LogError e "unable to access secret" ["secret_path"; v]) tt
            :: resolve_trace attempts).
    rewrite !resolver_calls_cons, fmap_cons. cbn. by rewrite IH.
Qed.

Lemma store_writes_resolve_trace (attempts : list Attempt) :
  store_writes (resolve_trace attempts) = [].
Proof.
  induction attempts as [|[[k v] [a|e]] attempts IH]; [done|..].
  - change (resolve_trace ((k, v, Ok a) :: attempts))
      with (ev (AccessSecretVersion {| secrets.Name := v |}) (Ok a)
            :: resolve_trace attempts).
    by rewrite store_writes_cons.
  - change (resolve_trace ((k, v, Err e) :: attempts))
      with (ev (AccessSecretVersion {| secrets.Name := v |}) (Err e)
            :: ev (LogError e "unable to access secret" ["secret_path"; v]) tt
            :: resolve_trace attempts).
    by rewrite !store_writes_cons.
Qed.

Lemma closing_resolver_calls ans what res :
  resolver_calls (closing ans what res).2 = [].
Proof. by destruct ans. Qed.

Lemma closing_store_writes ans what res :
  store_writes (closing ans what res).2 = [].
Proof. by destruct ans. Qed.

Lemma Ensured_resolver_calls childName cs r pre :
  Ensured childName cs r pre → resolver_calls pre = [].
Proof. by destruct 1. Qed.

Lemma Ensured_store_writes childName cs r pre :
  Ensured childName cs r pre →
  store_writes pre = [] ∨
  store_writes pre = [Create (secretsv1.InitChildSecret childName cs)].
Proof. destruct 1; [by left|by right..]. Qed.

Lemma Ensured_working_copy childName cs childSecret pre :
  Ensured childName cs (Ok childSecret) pre →
  ev (GetSecret (secretsv1.GetChildSecretKey childName cs)) (Ok childSecret) ∈ pre ∨
  ev (Create (secretsv1.InitChildSecret childName cs)) (Ok childSecret) ∈ pre.
Proof. inversion 1; subst; [left|right]; by elem_solve. Qed.

(** Normalise [resolver_calls] and [store_writes] of a trace of known shape. *)
Ltac trace_simpl :=
  repeat first
    [ rewrite resolver_calls_app | rewrite store_writes_app
    | rewrite closing_resolver_calls | rewrite closing_store_writes
    | rewrite resolver_calls_resolve_trace | rewrite store_writes_resolve_trace
    | rewrite resolver_calls_cons | rewrite store_writes_cons
    | rewrite resolver_calls_nil | rewrite store_writes_nil
    | erewrite Ensured_resolver_calls by eassumption ];
  cbn [access_of is_write projT1 ev app].

(** ** The loop's flag and payload *)

Lemma resolve_result_ok (attempts : list Attempt) k v access acc :
  resolve_result (((k, v), Ok access) :: attempts) acc
  = resolve_result attempts
      (acc.1, <[k := secrets.GetData (secrets.Payload access)]> acc.2).
Proof. done. Qed.

Lemma resolve_result_err (attempts : list Attempt) k v err acc :
  resolve_result (((k, v), Err err) :: attempts) acc
  = resolve_result attempts (true, acc.2).
Proof. done. Qed.

(** [getSecretFail] ends up set exactly when some attempt failed. *)
Lemma resolve_result_flag (attempts : list Attempt) f d :
  (resolve_result attempts (f, d)).1 = true
  ↔ f = true ∨ ∃ k v e, ((k, v), Err e) ∈ attempts.
Proof.
  revert f d. induction attempts as [|[[k v] [a|e]] attempts IH]; intros f d.
  - split; [by left|]. intros [?|(?&?&?&H)]; [done|]. by apply elem_of_nil in H.
  - rewrite resolve_result_ok, IH. split.
    + intros [?|(k'&v'&e'&H)]; [by left|]. right. exists k', v', e'. by right.
    + intros [?|(k'&v'&e'&H)]; [by left|]. right.
      apply elem_of_cons in H as [?|H]; [done|]. by exists k', v', e'.
  - rewrite resolve_result_err, IH. split; [|by left].
    intros _. right. exists k, v, e. by left.
Qed.

Lemma failed_iff (atts : list Attempt) :
  (∃ name e, (name, Err e) ∈ call_of <$> atts)
  ↔ (resolve_result atts (false, ∅)).1 = true.
Proof.
  rewrite resolve_result_flag. split.
  - intros (name & e & Hin). right.
    apply list_elem_of_fmap in Hin as ([[k v] r] & [= -> <-] & Hin). eauto.
  - intros [?|(k & v & e & Hin)]; [done|]. exists v, e.
    by apply (list_elem_of_fmap_2 call_of _ ((k, v), Err e)).
Qed.

Lemma resolve_result_other (attempts : list Attempt) f d k :
  k ∉ attempts.*1.*1 →
  (resolve_result attempts (f, d)).2 !! k = d !! k.
Proof.
  revert f d. induction attempts as [|[[k' v] [a|e]] attempts IH]; intros f d Hk.
  - done.
  - cbn in Hk. apply not_elem_of_cons in Hk as [Hne Hk].
    rewrite resolve_result_ok, IH by done. cbn. by rewrite lookup_insert_ne.
  - cbn in Hk. apply not_elem_of_cons in Hk as [Hne Hk].
    by rewrite resolve_result_err, IH.
Qed.

(** With one attempt per key, the payload holds a key exactly when its own
    attempt succeeded, with the bytes of that answer. *)
Lemma resolve_result_lookup (attempts : list Attempt) f d k v r :
  NoDup attempts.*1.*1 →
  ((k, v), r) ∈ attempts →
  (resolve_result attempts (f, d)).2 !! k =
    match r with
    | Ok access => Some (secrets.GetData (secrets.Payload access))
    | Err _ => d !! k
    end.
Proof.
  revert f d. induction attempts as [|[[k' v'] r'] attempts IH]; intros f d Hnd Hin.
  { by apply elem_of_nil in Hin. }
  cbn in Hnd. apply NoDup_cons in Hnd as [Hk' Hnd].
  apply elem_of_cons in Hin as [[= <- <- <-]|Hin].
  - destruct r as [a|e].
    + rewrite resolve_result_ok, resolve_result_other by done.
      cbn. by rewrite lookup_insert_eq.
    + by rewrite resolve_result_err, resolve_result_other.
  - assert (k ≠ k') as Hne.
    { intros ->. apply Hk'.
      apply (list_elem_of_fmap_2 fst _ (k', v)).
      by apply (list_elem_of_fmap_2 fst _ ((k', v), r)). }
    destruct r' as [a'|e'].
    + rewrite resolve_result_ok, (IH _ _ Hnd Hin). cbn.
      destruct r; [done|]. by rewrite lookup_insert_ne.
    + by rewrite resolve_result_err, (IH _ _ Hnd Hin).
Qed.

Lemma resolve_result_all_failed (atts : list Attempt) f d :
  (∀ name r, (name, r) ∈ call_of <$> atts → ∃ e, r = Err e) →
  (resolve_result atts (f, d)).2 = d.
Proof.
  revert f d. induction atts as [|[[k v] [a|e]] atts IH]; intros f d Hall.
  - done.
  - destruct (Hall v (Ok a)) as [e He]; [by left|done].
  - rewrite resolve_result_err. apply IH. intros name r Hin.
    apply (Hall name r). by right.
Qed.

Lemma range_NoDup (rng : MapRange) (m : gmap string string) : NoDup (rng m).*1.
Proof. rewrite (range_perm rng m). apply NoDup_fst_map_to_list. Qed.

Lemma elem_of_range (rng : MapRange) (m : gmap string string) k v :
  (k, v) ∈ rng m ↔ m !! k = Some v.
Proof. rewrite (range_perm rng m). apply elem_of_map_to_list. Qed.

Lemma elem_of_attempt_keys (atts : list Attempt) k :
  k ∈ atts.*1.*1 → ∃ v r, ((k, v), r) ∈ atts.
Proof.
  intros Hin.
  apply list_elem_of_fmap in Hin as ([k' v] & Hk & Hin).
  apply list_elem_of_fmap in Hin as ([[k'' v'] r] & Hkv & Hin).
  cbn in *. simplify_eq. by exists v', r.
Qed.

(** The working payload after one attempt per entry of the references. *)
Lemma resolve_result_payload (rng : MapRange) (refs : gmap string string)
    (atts : list Attempt) :
  atts.*1 = rng refs →
  let payload := (resolve_result atts (false, ∅)).2 in
  (∀ k b,
     payload !! k = Some b ↔
     ∃ v access, ((k, v), Ok access) ∈ atts ∧
                 b = secrets.GetData (secrets.Payload access)) ∧
  dom payload ⊆ dom refs.
Proof.
  intros Hfst payload; subst payload.
  assert (NoDup atts.*1.*1) as Hnd by (rewrite Hfst; apply range_NoDup).
  assert (∀ k b,
     (resolve_result atts (false, ∅)).2 !! k = Some b ↔
     ∃ v access, ((k, v), Ok access) ∈ atts ∧
                 b = secrets.GetData (secrets.Payload access)) as Hiff.
  { intros k b. split.
    - intros Hk.
      destruct (decide (k ∈ atts.*1.*1)) as [Hin|Hnin].
      + apply elem_of_attempt_keys in Hin as (v & r & Hin).
        rewrite (resolve_result_lookup _ _ _ _ _ _ Hnd Hin) in Hk.
        destruct r as [access|e]; [|by rewrite lookup_empty in Hk].
        exists v, access. split; [done|]. congruence.
      + rewrite resolve_result_other in Hk by done. by rewrite lookup_empty in Hk.
    - intros (v & access & Hin & ->).
      by rewrite (resolve_result_lookup _ _ _ _ _ _ Hnd Hin). }
  split; [done|].
  intros k Hk. apply elem_of_dom in Hk as [b Hk].
  apply Hiff in Hk as (v & access & Hin & _).
  apply elem_of_dom. exists v. apply (elem_of_range rng). rewrite <- Hfst.
  by apply (list_elem_of_fmap_2 fst _ ((k, v), Ok access)).
Qed.

(** Lines 90-94, in terms of the resolver calls made. *)
Lemma accelerate_interval (atts : list Attempt) cs :
  let failed := ∃ name e, (name, Err e) ∈ call_of <$> atts in
  let result :=
    accelerate (resolve_result atts (false, ∅)).1 (recDelay_of cs) (base_result cs) in
  (failed → recDelay_of cs > defaultRetryTime →
     ctrl.RequeueAfter result = defaultRetryTime) ∧
  (failed → recDelay_of cs ≤ defaultRetryTime →
     ctrl.RequeueAfter result = recDelay_of cs) ∧
  (¬ failed → ctrl.RequeueAfter result = recDelay_of cs).
Proof.
  intros failed result; subst failed result. rewrite failed_iff.
  unfold accelerate.
  destruct (resolve_result atts (false, ∅)).1; cbn; try case_bool_decide; cbn;
    repeat split; intros; first [done | lia | exfalso; auto].
Qed.

(** Line 56 does not wrap when the period in nanoseconds fits in [int64]. *)
Lemma recDelay_of_in_range cs :
  - 2 ^ 63 ≤ secretsv1.SyncPeriod (secretsv1.Spec cs) * time.Second < 2 ^ 63 →
  recDelay_of cs = secretsv1.SyncPeriod (secretsv1.Spec cs) * time.Second.
Proof.
  intros Hrange. unfold recDelay_of, time.mul, time.Duration_of, time.Second in *.
  assert (∀ z, - 2 ^ 63 ≤ z < 2 ^ 63 → wrap64 z = z) as Hwrap.
  { intros z Hz. unfold wrap64. rewrite Z.mod_small; lia. }
  rewrite (Hwrap (secretsv1.SyncPeriod (secretsv1.Spec cs))) by lia.
  by apply Hwrap.
Qed.

(** ** Every run follows one of the paths *)

Section PathFacts.
Variable childName : string → string.
Variable rng : MapRange.
Context {S : Type} (h : Handler S).

Lemma ensureChild_run cs s :
  Ensured childName cs (run h (ensureChild childName cs) s).1.1
                       (run h (ensureChild childName cs) s).2.
Proof.
  unfold ensureChild; cbn.
  destruct (h (GetSecret _) s) as [[childSecret|e0] s1]; cbn.
  { constructor. }
  destruct (h (LogInfo _) s1) as [[] s2]; cbn.
  destruct (h (Create _) s2) as [[childSecret|err] s3]; cbn.
  { apply ensured_created. }
  destruct (h (LogError _ _ _) s3) as [[] s4]; cbn.
  apply ensured_failed.
Qed.

Lemma Reconcile_outcome req s :
  Outcome childName rng req
    (run h (Reconcile childName rng req) s).1.1
    (run h (Reconcile childName rng req) s).2.
Proof.
  unfold Reconcile; cbn.
  destruct (h (GetCloudSecret _) s) as [[cs|err] s1]; cbn.
  2:{ destruct (h (LogError _ _ _) s1) as [[] s2]; cbn. apply out_no_parent. }
  rewrite run_mbind.
  pose proof (ensureChild_run cs s1) as Hens.
  destruct (run h (ensureChild childName cs) s1) as [[[childSecret|err] s2] pre];
    cbn [fst snd] in *.
  2:{ cbn. rewrite app_nil_r. by constructor. }
  case_bool_decide as Hlen.
  { cbn. destruct (h (LogInfo _) s2) as [[] s3]; cbn. by eapply out_empty. }
  rewrite run_mbind.
  destruct (resolveAll_run h (rng (secretsv1.Data (secretsv1.Spec cs))) false ∅ s2)
    as (attempts & Hfst & Hres & Htr).
  destruct (run h (resolveAll _ _ _) s2) as [[[getSecretFail data] s3] tr];
    cbn [fst snd] in *; subst tr.
  assert (getSecretFail = (resolve_result attempts (false, ∅)).1) as ->
    by (by rewrite <- Hres).
  assert (data = (resolve_result attempts (false, ∅)).2) as ->
    by (by rewrite <- Hres).
  clear Hres.
  case_bool_decide as Hdata; cbn.
  - destruct (h (Delete _) s3) as [[err|] s4]; cbn.
    + destruct (h (LogError _ _ _) s4) as [[] s5]; cbn.
      by apply (out_delete childName rng req cs childSecret pre attempts (Some err)).
    + by apply (out_delete childName rng req cs childSecret pre attempts None).
  - destruct (h (LogInfo _) s3) as [[] s4]; cbn.
    destruct (h (Update _) s4) as [[err|] s5]; cbn.
    + destruct (h (LogError _ _ _) s5) as [[] s6]; cbn.
      by apply (out_update childName rng req cs childSecret pre attempts (Some err)).
    + by apply (out_update childName rng req cs childSecret pre attempts None).
Qed.

(** The first call is the parent lookup, and the second, when the parent was
    found, the child lookup: what the trace records for them is what the
    handler answers in the state it is then in. *)
Lemma Ensured_replay cs r pre s s' :
  Ensured childName cs r pre →
  replay h s pre s' →
  match r with
  | Ok childSecret =>
      (h (GetSecret (secretsv1.GetChildSecretKey childName cs)) s).1 = Ok childSecret
      ∨ ∃ e0, (h (GetSecret (secretsv1.GetChildSecretKey childName cs)) s).1 = Err e0
  | Err _ =>
      ∃ e0, (h (GetSecret (secretsv1.GetChildSecretKey childName cs)) s).1 = Err e0
  end.
Proof. destruct 1; intros [Hget _]; eauto. Qed.
End PathFacts.

(** Split a run of [Reconcile] into its outcome and the replay of its trace. *)
Ltac run_cases childName rng h req s Hout Hrep :=
  pose proof (Reconcile_outcome childName rng h req s) as Hout;
  pose proof (run_replay h (Reconcile childName rng req) s) as Hrep;
  unfold err_of, res_of, trace_of, state_of in *;
  destruct (run h (Reconcile childName rng req) s) as [[[?res ?err] ?st] ?tr];
  cbn [fst snd] in *.

Ltac outcome_inv Hout :=
  inversion Hout as
    [ e | cs' e pre Hens | cs' child pre Hens Hlen
    | cs' child pre atts ans Hens Hlen Hfst Hdata acc fin Hfin
    | cs' child pre atts ans Hens Hlen Hfst Hdata acc fin Hfin ]; subst;
  try subst fin; try subst acc.

(** ** The store *)

Lemma store_get_ok {T} (m : gmap types.NamespacedName T) key injected obj :
  store_get m key injected = Ok obj → m !! key = Some obj.
Proof.
  unfold store_get. destruct injected; [done|].
  destruct (m !! key); naive_solver.
Qed.

Lemma store_create_ok obj w created w' :
  store_create obj w = (Ok created, w') →
  created = obj ∧ childSecrets w !! corev1.key obj = None ∧
  w' = set_childSecrets <[corev1.key obj := obj]> w.
Proof.
  unfold store_create. destruct (fault w _); [done|].
  destruct (childSecrets w !! _) eqn:?; [done|]. naive_solver.
Qed.

Lemma store_update_ok obj w w' :
  store_update obj w = (None, w') →
  is_Some (childSecrets w !! corev1.key obj) ∧
  w' = set_childSecrets <[corev1.key obj := obj]> w.
Proof.
  unfold store_update. destruct (fault w _); [done|].
  destruct (childSecrets w !! _) eqn:?; [|done]. naive_solver.
Qed.

Lemma store_delete_ok obj w w' :
  store_delete obj w = (None, w') →
  is_Some (childSecrets w !! corev1.key obj) ∧
  w' = set_childSecrets (delete (corev1.key obj)) w.
Proof.
  unfold store_delete. destruct (fault w _); [done|].
  destruct (childSecrets w !! _) eqn:?; [|done]. naive_solver.
Qed.

Lemma answered_fst gcp entries : (answered gcp entries).*1 = entries.
Proof.
  induction entries as [|[k v] entries IH]; [done|].
  unfold answered in *. rewrite !fmap_cons. cbn [fst]. by rewrite IH.
Qed.

(** Against the store the loop leaves the store alone and gets the resolver's
    answer for every entry. *)
Lemma resolveAll_world entries f d w :
  run apiserver (resolveAll entries f d) w =
    (resolve_result (answered (gcpSecrets w) entries) (f, d), w,
     resolve_trace (answered (gcpSecrets w) entries)).
Proof.
  revert f d. induction entries as [|[k v] entries IH]; intros f d; [done|].
  cbn. by destruct (gcpSecrets w v) as [a|e]; cbn; rewrite IH.
Qed.

(** The payload does not depend on the iteration order. *)
Lemma resolved_payload_range (rng : MapRange) gcp refs f :
  (resolve_result (answered gcp (rng refs)) (f, ∅)).2 = resolved_payload gcp refs.
Proof.
  apply map_eq; intros k. unfold resolved_payload. rewrite lookup_omap.
  assert (NoDup (answered gcp (rng refs)).*1.*1) as Hnd.
  { rewrite answered_fst. apply range_NoDup. }
  destruct (refs !! k) as [v|] eqn:Hk; cbn.
  - assert (((k, v), gcp v) ∈ answered gcp (rng refs)) as Hin.
    { apply (list_elem_of_fmap_2 (λ kv, (kv, gcp kv.2)) _ (k, v)).
      by apply elem_of_range. }
    rewrite (resolve_result_lookup _ _ _ _ _ _ Hnd Hin).
    by destruct (gcp v).
  - rewrite resolve_result_other; [done|].
    rewrite answered_fst. intros Hin.
    apply list_elem_of_fmap in Hin as ([k' v] & Heq & Hin).
    cbn in Heq; subst k'. apply elem_of_range in Hin. congruence.
Qed.

Lemma ensureChild_world childName cs w :
  (run apiserver (ensureChild childName cs) w).1 = ensure_world childName cs w.
Proof.
  unfold ensureChild, ensure_world; cbn.
  destruct (store_get (childSecrets w) _ _) as [childSecret|e0]; cbn; [done|].
  by destruct (store_create _ w) as [[created|err] w1].
Qed.

(** A cycle returns the error and leaves the store that [reconcile_world]
    computes, whatever the iteration order. *)
Lemma cycle_world childName rng req w :
  (err_of (cycle childName rng req w), state_of (cycle childName rng req w))
  = reconcile_world childName req w.
Proof.
  unfold cycle, reconcile_world, err_of, state_of, Reconcile; cbn.
  destruct (store_get (cloudSecrets w) _ _) as [cs|err]; cbn; [|done].
  rewrite run_mbind; cbn [fst snd].
  pose proof (ensureChild_world childName cs w) as Hens.
  destruct (run apiserver (ensureChild childName cs) w) as [[ensured w1'] pre].
  cbn [fst snd] in *. rewrite <- Hens. clear Hens.
  destruct ensured as [childSecret|err]; cbn; [|done].
  case_bool_decide as Hlen; case_decide as Hrefs;
    try (apply len_zero in Hlen; done); try (apply len_zero in Hrefs; done).
  rewrite run_mbind, resolveAll_world; cbn [fst snd].
  pose proof (resolved_payload_range rng (gcpSecrets w1')
                (secretsv1.Data (secretsv1.Spec cs)) false) as Hpayload.
  destruct (resolve_result _ _) as [getSecretFail data].
  cbn [fst snd] in Hpayload; subst data. cbn.
  case_bool_decide as Hdata; case_decide as Hpay;
    try (apply len_zero in Hdata; done); try (apply len_zero in Hpay; done); cbn.
  - by destruct (store_delete _ w1') as [[e|] w2].
  - by destruct (store_update _ w1') as [[e|] w2].
Qed.

Lemma reconcile_world_no_parent childName req w err :
  (apiserver (GetCloudSecret (ctrl.NamespacedName req)) w).1 = Err err →
  reconcile_world childName req w = (client.IgnoreNotFound (Some err), w).
Proof. cbn. intros Hget. unfold reconcile_world. by rewrite Hget. Qed.

Lemma reconcile_world_parent childName req w cs :
  (apiserver (GetCloudSecret (ctrl.NamespacedName req)) w).1 = Ok cs →
  reconcile_world childName req w =
    match ensure_world childName cs w with
    | (Err err, w1) => (Some err, w1)
    | (Ok childSecret, w1) =>
        let refs := secretsv1.Data (secretsv1.Spec cs) in
        if decide (refs = ∅) then (None, w1)
        else
          let payload := resolved_payload (gcpSecrets w1) refs in
          if decide (payload = ∅)
          then store_delete (corev1.set_Data payload childSecret) w1
          else store_update (corev1.set_Data payload childSecret) w1
    end.
Proof. cbn. intros Hget. unfold reconcile_world. by rewrite Hget. Qed.

(** When the child is ensured, the store holds the working copy at the child
    key: it was found there, or it has just been created there. *)
Lemma ensure_world_ok childName cs w childSecret w1 :
  ensure_world childName cs w = (Ok childSecret, w1) →
  let key := secretsv1.GetChildSecretKey childName cs in
  childSecrets w1 !! key = Some childSecret ∧
  cloudSecrets w1 = cloudSecrets w ∧ gcpSecrets w1 = gcpSecrets w ∧
  fault w1 = fault w ∧
  ( w1 = w
  ∨ (childSecrets w !! key = None ∧
     childSecret = secretsv1.InitChildSecret childName cs ∧
     childSecrets w1 = <[key := childSecret]> (childSecrets w)) ).
Proof.
  intros Hens key. unfold ensure_world in Hens. fold key in Hens.
  destruct (store_get (childSecrets w) _ _) as [found|e0] eqn:Hget.
  - simplify_eq. apply store_get_ok in Hget. split_and!; try done. by left.
  - apply store_create_ok in Hens as (-> & Hnone & ->). cbn.
    split_and!; try done.
    + apply lookup_insert_eq.
    + right. done.
Qed.

(** A cycle on a found parent that returns no error: the working copy [wc]
    sits at the child key of the intermediate store [ca] (found there, or just
    created there), and the cycle leaves [ca] as it is, or deletes or
    overwrites the entry at the working copy's own key. *)
Lemma reconcile_world_ok childName req w cs w1 :
  (apiserver (GetCloudSecret (ctrl.NamespacedName req)) w).1 = Ok cs →
  reconcile_world childName req w = (None, w1) →
  let key := secretsv1.GetChildSecretKey childName cs in
  let refs := secretsv1.Data (secretsv1.Spec cs) in
  let payload := resolved_payload (gcpSecrets w) refs in
  cloudSecrets w1 = cloudSecrets w ∧ gcpSecrets w1 = gcpSecrets w ∧
  ∃ wc ca,
    ca !! key = Some wc ∧
    ( ca = childSecrets w
    ∨ (childSecrets w !! key = None ∧
       wc = secretsv1.InitChildSecret childName cs ∧
       ca = <[key := wc]> (childSecrets w)) ) ∧
    ( (refs = ∅ ∧ childSecrets w1 = ca)
    ∨ (refs ≠ ∅ ∧ payload = ∅ ∧ is_Some (ca !! corev1.key wc) ∧
       childSecrets w1 = delete (corev1.key wc) ca)
    ∨ (refs ≠ ∅ ∧ payload ≠ ∅ ∧ is_Some (ca !! corev1.key wc) ∧
       childSecrets w1 = <[corev1.key wc := corev1.set_Data payload wc]> ca) ).
Proof.
  intros Hget Hrun key refs payload.
  rewrite (reconcile_world_parent _ _ _ _ Hget) in Hrun.
  destruct (ensure_world childName cs w) as [[wc|err] wa] eqn:Hens;
    [|by simplify_eq].
  apply ensure_world_ok in Hens as (Hwc & Hcs & Hgcp & _ & Hwa).
  fold key in Hwc, Hwa. fold refs in Hrun. cbn zeta in Hrun.
  rewrite Hgcp in Hrun. fold payload in Hrun.
  assert (ca_cases :
    childSecrets wa = childSecrets w
    ∨ (childSecrets w !! key = None ∧
       wc = secretsv1.InitChildSecret childName cs ∧
       childSecrets wa = <[key := wc]> (childSecrets w))).
  { destruct Hwa as [->|?]; [by left|by right]. }
  clear Hwa.
  destruct (decide (refs = ∅)) as [Hrefs|Hrefs].
  { injection Hrun as <-. split_and!; try done.
    exists wc, (childSecrets wa). split_and!; try done. by left. }
  destruct (decide (payload = ∅)) as [Hpay|Hpay].
  - apply store_delete_ok in Hrun as [Hsome ->]. cbn. split_and!; try done.
    exists wc, (childSecrets wa). split_and!; try done. right; left. done.
  - apply store_update_ok in Hrun as [Hsome ->]. cbn. split_and!; try done.
    exists wc, (childSecrets wa). split_and!; try done. right; right. done.
Qed.

Lemma apiserver_parent_with_fault flt req w cs cs2 :
  (apiserver (GetCloudSecret (ctrl.NamespacedName req)) w).1 = Ok cs →
  ∀ w1, cloudSecrets w1 = cloudSecrets w →
  (apiserver (GetCloudSecret (ctrl.NamespacedName req)) (with_fault flt w1)).1 = Ok cs2 →
  cs2 = cs.
Proof.
  cbn. intros H1 w1 Hcs H2.
  apply store_get_ok in H1, H2. cbn in H2. rewrite Hcs in H2. congruence.
Qed.

(** A failed delete and a failed attempt to ensure the child leave the store
    as it was. *)
Lemma store_delete_err obj w err w' :
  store_delete obj w = (Some err, w') → w' = w.
Proof.
  unfold store_delete. destruct (fault w _); [naive_solver|].
  destruct (childSecrets w !! _); naive_solver.
Qed.

Lemma ensure_world_err childName cs w err w' :
  ensure_world childName cs w = (Err err, w') → w' = w.
Proof.
  unfold ensure_world, store_create.
  destruct (store_get _ _ _); [naive_solver|].
  destruct (fault w _); [naive_solver|].
  destruct (childSecrets w !! _); naive_solver.
Qed.

(** Nothing resolves when the resolver fails on every reference. *)
Lemma resolved_payload_all_failed gcp (refs : gmap string string) :
  (∀ k v, refs !! k = Some v → ∃ e, gcp v = Err e) →
  resolved_payload gcp refs = ∅.
Proof.
  intros Hall. apply map_eq; intros k.
  unfold resolved_payload. rewrite lookup_omap, lookup_empty.
  destruct (refs !! k) as [v|] eqn:Hk; [|done]. cbn.
  by destruct (Hall k v Hk) as [e ->].
Qed.

(** * The claims *)

(** C1.  A cycle on a DesiredSecret with non-empty references that completes
    without a store error attempts every (key, ref) pair of the references
    against the resolver, once each and whatever the earlier answers were
    (there is one attempt per entry of the iteration order, which enumerates
    the references, and the resolver calls of the trace are exactly these
    attempts); the working payload holds a key, with the bytes the resolver
    returned for it, if and only if that key's attempt succeeded; so the
    payload's keys, and the keys of every object the cycle creates or updates,
    are among the reference keys.  The working payload is the [Data] of the
    object handed to the closing [Update], or [Delete] when it is empty. *)
Theorem Reconcile_resolves_every_reference {S} (h : Handler S)
    childName rng req s cs :
  (h (GetCloudSecret (ctrl.NamespacedName req)) s).1 = Ok cs →
  secretsv1.Data (secretsv1.Spec cs) ≠ ∅ →
  let out := run h (Reconcile childName rng req) s in
  let refs := secretsv1.Data (secretsv1.Spec cs) in
  err_of out = None →
  ∃ (attempts : list Attempt) (payload : gmap string bytes),
    attempts.*1 ≡ₚ map_to_list refs ∧
    resolver_calls (trace_of out) = call_of <$> attempts ∧
    (∀ k b,
       payload !! k = Some b ↔
       ∃ v access, ((k, v), Ok access) ∈ attempts ∧
                   b = secrets.GetData (secrets.Payload access)) ∧
    dom payload ⊆ dom refs ∧
    (∃ childSecret,
       last (store_writes (trace_of out))
         = Some (Update (corev1.set_Data payload childSecret)) ∨
       (payload = ∅ ∧
        last (store_writes (trace_of out))
          = Some (Delete (corev1.set_Data payload childSecret)))) ∧
    (∀ obj, Update obj ∈ store_writes (trace_of out) ∨
            Create obj ∈ store_writes (trace_of out) →
            dom (corev1.Data obj) ⊆ dom refs).
Proof.
  intros Hget Hrefs out refs; subst out refs.
  run_cases childName rng h req s Hout Hrep.
  intros Herr.
  outcome_inv Hout; destruct Hrep as [Hrep _]; try congruence;
    assert (cs' = cs) as -> by congruence.
  - by apply len_zero in Hlen.
  - destruct ans; cbn in Hfin; simplify_eq.
    destruct (resolve_result_payload rng _ atts Hfst) as [Hiff Hdom].
    exists atts, (resolve_result atts (false, ∅)).2.
    trace_simpl. rewrite ?app_nil_r.
    split_and!; try done.
    + rewrite Hfst. apply range_perm.
    + exists child. right. split; [by apply len_zero|]. apply last_snoc.
    + intros obj [Hin|Hin];
        destruct (Ensured_store_writes _ _ _ _ Hens) as [Hw|Hw];
        rewrite Hw in Hin; cbn in Hin; elem_cases Hin.
      injection Hin as ->. cbn. by rewrite dom_empty_L.
  - destruct ans; cbn in Hfin; simplify_eq.
    destruct (resolve_result_payload rng _ atts Hfst) as [Hiff Hdom].
    exists atts, (resolve_result atts (false, ∅)).2.
    trace_simpl. rewrite ?app_nil_r.
    split_and!; try done.
    + rewrite Hfst. apply range_perm.
    + exists child. left. apply last_snoc.
    + intros obj [Hin|Hin];
        destruct (Ensured_store_writes _ _ _ _ Hens) as [Hw|Hw];
        rewrite Hw in Hin; cbn in Hin; elem_cases Hin.
      * by injection Hin as ->.
      * by injection Hin as ->.
      * injection Hin as ->. cbn. by rewrite dom_empty_L.
Qed.

(** Scenario C: of two references one resolves and one fails; both are
    attempted and only the resolved key is in the payload. *)
Lemma Reconcile_resolves_every_reference_witness :
  (apiserver (GetCloudSecret (ctrl.NamespacedName Scenario.req))
             Scenario.scenarioC).1 = Ok Scenario.two_refs ∧
  secretsv1.Data (secretsv1.Spec Scenario.two_refs) ≠ ∅ ∧
  err_of (Scenario.run_cycle Scenario.scenarioC) = None ∧
  ∃ (attempts : list Attempt) (payload : gmap string bytes),
    attempts.*1 ≡ₚ map_to_list (secretsv1.Data (secretsv1.Spec Scenario.two_refs)) ∧
    resolver_calls (trace_of (Scenario.run_cycle Scenario.scenarioC))
      = call_of <$> attempts ∧
    dom payload ⊆ dom (secretsv1.Data (secretsv1.Spec Scenario.two_refs)).
Proof.
  split_and!; [by_compute..|].
  destruct (Reconcile_resolves_every_reference apiserver Scenario.childName
              canonical_range Scenario.req Scenario.scenarioC Scenario.two_refs)
    as (attempts & payload & Hperm & Hcalls & _ & Hdom & _);
    [by_compute..|].
  by exists attempts, payload.
Defined.

(** Whatever error the child lookup fails with, NotFound or not, the next
    store call is the creation of the child: line 61 tests [err != nil] only. *)
Lemma Reconcile_creates_on_any_lookup_error {S} (h : Handler S)
    childName rng req s cs e0 :
  (h (GetCloudSecret (ctrl.NamespacedName req)) s).1 = Ok cs →
  (h (GetSecret (secretsv1.GetChildSecretKey childName cs))
     (h (GetCloudSecret (ctrl.NamespacedName req)) s).2).1 = Err e0 →
  head (store_writes (trace_of (run h (Reconcile childName rng req) s)))
    = Some (Create (secretsv1.InitChildSecret childName cs)).
Proof.
  intros Hget Hchild.
  run_cases childName rng h req s Hout Hrep.
  outcome_inv Hout; destruct Hrep as [Hrep Hrest]; try congruence;
    assert (cs' = cs) as -> by congruence;
    inversion Hens; subst; destruct Hrest as [Hrest _]; try congruence;
    by trace_simpl.
Qed.

(** C2 (the code departs from the claim).  The child lookup fails with an
    error that is not NotFound: an I/O timeout.  The claim has [Reconcile]
    return that error at once, with no create, update or delete.  The code
    creates the child, resolves the reference, updates the child and returns
    no error, with the base requeue interval of 60 seconds. *)
Theorem Reconcile_swallows_child_lookup_error :
  (apiserver (GetSecret (secretsv1.GetChildSecretKey Scenario.childName Scenario.one_ref))
             Scenario.lookup_fails).1 = Err Scenario.ioError ∧
  client.IsNotFound Scenario.ioError = false ∧
  err_of (Scenario.run_cycle Scenario.lookup_fails) = None ∧
  ctrl.RequeueAfter (res_of (Scenario.run_cycle Scenario.lookup_fails))
    = 60 * time.Second ∧
  store_writes (trace_of (Scenario.run_cycle Scenario.lookup_fails))
    = [Create (secretsv1.InitChildSecret Scenario.childName Scenario.one_ref);
       Update (corev1.set_Data {[ "db" := Scenario.b "p1" ]}
                 (secretsv1.InitChildSecret Scenario.childName Scenario.one_ref))].
Proof. split_and!; by_compute. Qed.

(** C3, as stated, fails.  Scenario B with a failing delete: the references
    are not empty, the one resolution fails, the period of 60 seconds exceeds
    5 seconds, so step 6 lowers the interval to 5 seconds; then the delete of
    step 7 fails and [Reconcile] returns [ctrl.Result{}]: the returned interval
    is 0, not 5 seconds. *)
Lemma requeue_interval_lost_on_store_error :
  (apiserver (GetCloudSecret (ctrl.NamespacedName Scenario.req))
             Scenario.delete_fails).1 = Ok Scenario.bad_ref ∧
  secretsv1.Data (secretsv1.Spec Scenario.bad_ref) ≠ ∅ ∧
  resolver_calls (trace_of (Scenario.run_cycle Scenario.delete_fails))
    = [("bad", Err Scenario.unavailable)] ∧
  recDelay_of Scenario.bad_ref > defaultRetryTime ∧
  err_of (Scenario.run_cycle Scenario.delete_fails) = Some Scenario.ioError ∧
  ctrl.RequeueAfter (res_of (Scenario.run_cycle Scenario.delete_fails)) = 0 ∧
  ctrl.RequeueAfter (res_of (Scenario.run_cycle Scenario.delete_fails))
    ≠ defaultRetryTime.
Proof. split_and!; by_compute. Qed.

(** C3, amended.  For every cycle with non-empty references that reaches
    step 6 and returns no error: if at least one resolution failed and
    syncPeriod is greater than 5 seconds, the returned requeue interval is
    exactly 5 seconds; if at least one resolution failed and syncPeriod is at
    most 5 seconds, it is syncPeriod unchanged; if no resolution failed, it is
    syncPeriod.  When the cycle returns an error instead, the returned interval
    is 0.  The syncPeriod of the cycle is the duration of line 56,
    [recDelay_of cs]. *)
Theorem Reconcile_requeue_interval {S} (h : Handler S) childName rng req s cs :
  (h (GetCloudSecret (ctrl.NamespacedName req)) s).1 = Ok cs →
  secretsv1.Data (secretsv1.Spec cs) ≠ ∅ →
  let out := run h (Reconcile childName rng req) s in
  let failed := ∃ name e, (name, Err e) ∈ resolver_calls (trace_of out) in
  defaultRetryTime = 5 * time.Second ∧
  (- 2 ^ 63 ≤ secretsv1.SyncPeriod (secretsv1.Spec cs) * time.Second < 2 ^ 63 →
     recDelay_of cs = secretsv1.SyncPeriod (secretsv1.Spec cs) * time.Second) ∧
  (err_of out = None →
     (failed → recDelay_of cs > defaultRetryTime →
        ctrl.RequeueAfter (res_of out) = defaultRetryTime) ∧
     (failed → recDelay_of cs ≤ defaultRetryTime →
        ctrl.RequeueAfter (res_of out) = recDelay_of cs) ∧
     (¬ failed → ctrl.RequeueAfter (res_of out) = recDelay_of cs)) ∧
  (∀ err, err_of out = Some err → ctrl.RequeueAfter (res_of out) = 0).
Proof.
  intros Hget Hrefs out failed; subst out failed.
  split; [done|]. split; [apply recDelay_of_in_range|].
  run_cases childName rng h req s Hout Hrep.
  split.
  - intros Herr.
    outcome_inv Hout; destruct Hrep as [Hrep _]; try congruence;
      assert (cs' = cs) as -> by congruence.
    + by apply len_zero in Hlen.
    + destruct ans; cbn in Hfin; simplify_eq.
      trace_simpl. rewrite ?app_nil_r. apply accelerate_interval.
    + destruct ans; cbn in Hfin; simplify_eq.
      trace_simpl. rewrite ?app_nil_r. apply accelerate_interval.
  - intros failure Herr.
    outcome_inv Hout; try done;
      destruct ans; cbn in Hfin; by simplify_eq.
Qed.

(** Scenario C: one of two resolutions fails, the period is 60 seconds, the
    update succeeds: the cycle asks to be requeued after 5 seconds. *)
Lemma Reconcile_requeue_interval_witness :
  (apiserver (GetCloudSecret (ctrl.NamespacedName Scenario.req))
             Scenario.scenarioC).1 = Ok Scenario.two_refs ∧
  secretsv1.Data (secretsv1.Spec Scenario.two_refs) ≠ ∅ ∧
  err_of (Scenario.run_cycle Scenario.scenarioC) = None ∧
  ctrl.RequeueAfter (res_of (Scenario.run_cycle Scenario.scenarioC))
    = defaultRetryTime.
Proof.
  split_and!; [by_compute..|].
  destruct (Reconcile_requeue_interval apiserver Scenario.childName
              canonical_range Scenario.req Scenario.scenarioC Scenario.two_refs)
    as (_ & _ & Hok & _); [by_compute..|].
  destruct Hok as (Hfast & _); [by_compute|].
  apply Hfast; [|by_compute].
  exists "rb", Scenario.unavailable. vm_compute. elem_solve.
Defined.

(** C4.  When the store holds a ManagedSecret from an earlier cycle and the
    current cycle resolves some reference and persists its update, the
    persisted payload is exactly what resolved this cycle: a key is present,
    with this cycle's bytes, if and only if its reference resolved; a key whose
    resolution failed is absent whatever the previous payload held for it.  The
    rest of the stored object is as before. *)
Theorem cycle_replaces_payload childName rng req w cs old :
  let childKey := secretsv1.GetChildSecretKey childName cs in
  let refs := secretsv1.Data (secretsv1.Spec cs) in
  (apiserver (GetCloudSecret (ctrl.NamespacedName req)) w).1 = Ok cs →
  childSecrets w !! childKey = Some old →
  corev1.key old = childKey →
  (∃ k v access, refs !! k = Some v ∧ gcpSecrets w v = Ok access) →
  let out := cycle childName rng req w in
  err_of out = None →
  ∃ new,
    childSecrets (state_of out) !! childKey = Some new ∧
    new = corev1.set_Data (corev1.Data new) old ∧
    (∀ k, corev1.Data new !! k =
            match refs !! k with
            | Some v =>
                match gcpSecrets w v with
                | Ok access => Some (secrets.GetData (secrets.Payload access))
                | Err _ => None
                end
            | None => None
            end) ∧
    (∀ k v e, refs !! k = Some v → gcpSecrets w v = Err e →
              corev1.Data new !! k = None).
Proof.
  intros childKey refs Hget Hold Hkey (k0 & v0 & a0 & Hk0 & Hv0) out Herr.
  pose proof (cycle_world childName rng req w) as Hw.
  fold out in Hw. rewrite Herr in Hw.
  rewrite (reconcile_world_parent _ _ _ _ Hget) in Hw.
  destruct (ensure_world childName cs w) as [[childSecret|err] w1] eqn:Hens;
    [|by simplify_eq].
  apply ensure_world_ok in Hens as (Hwc & _ & Hgcp & _ & [->|(Hnone & _)]);
    [|fold childKey in Hnone; congruence].
  fold childKey in Hwc. assert (childSecret = old) as -> by congruence.
  fold refs in Hw. cbn zeta in Hw.
  assert (resolved_payload (gcpSecrets w) refs !! k0
          = Some (secrets.GetData (secrets.Payload a0))) as Hres.
  { unfold resolved_payload. rewrite lookup_omap, Hk0. cbn. by rewrite Hv0. }
  destruct (decide (refs = ∅)) as [Hrefs|Hrefs].
  { rewrite Hrefs in Hk0. by rewrite lookup_empty in Hk0. }
  destruct (decide (resolved_payload (gcpSecrets w) refs = ∅)) as [Hpay|Hpay].
  { rewrite Hpay in Hres. by rewrite lookup_empty in Hres. }
  destruct (store_update _ w) as [e w'] eqn:Hupd.
  injection Hw as <- ->.
  apply store_update_ok in Hupd as [_ ->]. cbn.
  change (corev1.key (corev1.set_Data (resolved_payload (gcpSecrets w) refs) old))
    with (corev1.key old).
  rewrite Hkey. fold childKey. rewrite lookup_insert_eq.
  eexists; split_and!; [done|done|..]; cbn.
  - intros k. unfold resolved_payload. rewrite lookup_omap.
    by destruct (refs !! k).
  - intros k v e Hk Hv. unfold resolved_payload.
    rewrite lookup_omap, Hk. cbn. by rewrite Hv.
Qed.

(** Scenario C: the child holds [a] and [b] from an earlier cycle; [ra]
    resolves and [rb] fails; after the cycle the child holds [a] only. *)
Lemma cycle_replaces_payload_witness :
  (apiserver (GetCloudSecret (ctrl.NamespacedName Scenario.req))
             Scenario.scenarioC).1 = Ok Scenario.two_refs ∧
  childSecrets Scenario.scenarioC
    !! secretsv1.GetChildSecretKey Scenario.childName Scenario.two_refs
    = Some Scenario.old_child ∧
  corev1.Data Scenario.old_child !! "b" = Some (Scenario.b "old") ∧
  err_of (Scenario.run_cycle Scenario.scenarioC) = None ∧
  ∃ new,
    childSecrets (state_of (Scenario.run_cycle Scenario.scenarioC))
      !! secretsv1.GetChildSecretKey Scenario.childName Scenario.two_refs
      = Some new ∧
    corev1.Data new !! "a" = Some (Scenario.b "new") ∧
    corev1.Data new !! "b" = None.
Proof.
  split_and!; [by_compute..|].
  destruct (cycle_replaces_payload Scenario.childName canonical_range
              Scenario.req Scenario.scenarioC Scenario.two_refs Scenario.old_child)
    as (new & Hnew & _ & Hdata & Hdrop); [by_compute..| |by_compute|].
  { exists "a", "ra", (Scenario.payload "new"). split; by_compute. }
  exists new. split_and!; [done|..].
  - rewrite Hdata. by_compute.
  - apply (Hdrop "b" "rb" Scenario.unavailable); by_compute.
Defined.

(** C5, as stated, fails.  Scenario B with a failing delete: the references
    are not empty and the one resolution fails, so the working payload is
    empty.  The child, absent before the cycle, is created at line 64; the
    delete of line 99 fails and [Reconcile] returns its error.  After the cycle
    the store holds the ManagedSecret with an empty payload: it is left in
    place. *)
Lemma total_failure_leaves_empty_child :
  (apiserver (GetCloudSecret (ctrl.NamespacedName Scenario.req))
             Scenario.delete_fails).1 = Ok Scenario.bad_ref ∧
  secretsv1.Data (secretsv1.Spec Scenario.bad_ref) ≠ ∅ ∧
  resolver_calls (trace_of (Scenario.run_cycle Scenario.delete_fails))
    = [("bad", Err Scenario.unavailable)] ∧
  managed_payload Scenario.childName Scenario.bad_ref Scenario.delete_fails = None ∧
  err_of (Scenario.run_cycle Scenario.delete_fails) = Some Scenario.ioError ∧
  managed_payload Scenario.childName Scenario.bad_ref
    (state_of (Scenario.run_cycle Scenario.delete_fails)) = Some ∅.
Proof. split_and!; by_compute. Qed.

(** C5, amended.  For every cycle in which the references are non-empty and
    every resolution fails (the working payload is empty), [Reconcile] asks
    the store to delete the ManagedSecret: its last store write is the
    [Delete] of the working copy, the object the child lookup or the create of
    this cycle returned, with the empty payload, and it makes no [Update].  If
    the delete fails, that error is returned with no requeue interval; if it
    succeeds, the cycle returns no error and the interval of step 6, 5 seconds
    when the period exceeds 5 seconds and the period otherwise.

    Against the store, for a child stored under its own name: a cycle that
    returns no error leaves the store without the ManagedSecret, and with
    nothing else changed; a cycle that returns an error leaves the store as it
    was, or with the child this cycle created, whose payload is empty, added
    to it. *)
Theorem Reconcile_total_failure_deletes :
  (∀ S (h : Handler S) childName (rng : MapRange) req s cs,
     (h (GetCloudSecret (ctrl.NamespacedName req)) s).1 = Ok cs →
     secretsv1.Data (secretsv1.Spec cs) ≠ ∅ →
     let out := run h (Reconcile childName rng req) s in
     resolver_calls (trace_of out) ≠ [] →
     (∀ name r, (name, r) ∈ resolver_calls (trace_of out) → ∃ e, r = Err e) →
     ∃ workingCopy answer,
       ( ev (GetSecret (secretsv1.GetChildSecretKey childName cs)) (Ok workingCopy)
           ∈ trace_of out
       ∨ ev (Create (secretsv1.InitChildSecret childName cs)) (Ok workingCopy)
           ∈ trace_of out ) ∧
       ev (Delete (corev1.set_Data ∅ workingCopy)) answer ∈ trace_of out ∧
       last (store_writes (trace_of out))
         = Some (Delete (corev1.set_Data ∅ workingCopy)) ∧
       (∀ obj, Update obj ∉ store_writes (trace_of out)) ∧
       match answer with
       | Some err =>
           err_of out = Some err ∧ ctrl.RequeueAfter (res_of out) = 0
       | None =>
           err_of out = None ∧
           ctrl.RequeueAfter (res_of out) =
             if bool_decide (recDelay_of cs > defaultRetryTime)
             then defaultRetryTime else recDelay_of cs
       end) ∧
  (∀ childName (rng : MapRange) req w cs,
     (apiserver (GetCloudSecret (ctrl.NamespacedName req)) w).1 = Ok cs →
     secretsv1.Data (secretsv1.Spec cs) ≠ ∅ →
     (∀ k v, secretsv1.Data (secretsv1.Spec cs) !! k = Some v →
             ∃ e, gcpSecrets w v = Err e) →
     let childKey := secretsv1.GetChildSecretKey childName cs in
     (∀ old, childSecrets w !! childKey = Some old → corev1.key old = childKey) →
     let out := cycle childName rng req w in
     match err_of out with
     | None =>
         childSecrets (state_of out) = delete childKey (childSecrets w) ∧
         managed_payload childName cs (state_of out) = None
     | Some _ =>
         childSecrets (state_of out) = childSecrets w
         ∨ (childSecrets w !! childKey = None ∧
            childSecrets (state_of out)
              = <[childKey := secretsv1.InitChildSecret childName cs]> (childSecrets w) ∧
            managed_payload childName cs (state_of out) = Some ∅)
     end).
Proof.
  split.
  - intros S h childName rng req s cs Hget Hrefs out; subst out.
    run_cases childName rng h req s Hout Hrep.
    intros Hcalled Hall.
    outcome_inv Hout; destruct Hrep as [Hrep _]; try congruence;
      assert (cs' = cs) as -> by congruence; revert Hcalled Hall; trace_simpl;
      rewrite ?app_nil_r; intros Hcalled Hall; try done.
    + (* the working payload is empty: Delete *)
      assert ((resolve_result atts (false, ∅)).2 = ∅) as Hempty
        by (by apply resolve_result_all_failed).
      assert ((resolve_result atts (false, ∅)).1 = true) as Hflag.
      { apply failed_iff. destruct atts as [|[[k v] r] atts]; [done|].
        destruct (Hall v r) as [e ->]; [by left|]. exists v, e. by left. }
      exists child, ans. rewrite Hempty.
      split_and!.
      * destruct (Ensured_working_copy _ _ _ _ Hens) as [Hwc|Hwc]; [left|right];
          right; rewrite elem_of_app; by left.
      * right. rewrite !elem_of_app. right; right. by left.
      * apply last_snoc.
      * intros obj Hin.
        destruct (Ensured_store_writes _ _ _ _ Hens) as [Hw|Hw];
          rewrite Hw in Hin; cbn in Hin; elem_cases Hin.
      * destruct ans; cbn in Hfin; simplify_eq; [done|]. split; [done|].
        rewrite Hflag. unfold accelerate; cbn. by case_bool_decide.
    + (* a non-empty payload would need a successful resolution *)
      exfalso. apply Hdata. apply len_zero. by apply resolve_result_all_failed.
  - intros childName rng req w cs Hget Hrefs Hall childKey Hown out; subst out.
    pose proof (cycle_world childName rng req w) as Hrun.
    destruct (cycle childName rng req w) as [[[res err] w1] tr].
    unfold err_of, state_of in *; cbn [fst snd] in *.
    rewrite (reconcile_world_parent _ _ _ _ Hget) in Hrun.
    destruct (ensure_world childName cs w) as [[wc|e] wa] eqn:Hens.
    2:{ apply ensure_world_err in Hens as ->. injection Hrun as -> ->. by left. }
    apply ensure_world_ok in Hens as (Hwc & _ & Hgcp & _ & Hwa).
    fold childKey in Hwc, Hwa. cbn zeta in Hrun.
    rewrite Hgcp, (resolved_payload_all_failed _ _ Hall) in Hrun.
    destruct (decide (secretsv1.Data (secretsv1.Spec cs) = ∅)); [done|].
    destruct (decide (∅ = ∅)) as [_|?]; [|done].
    destruct (store_delete (corev1.set_Data ∅ wc) wa) as [answer w2] eqn:Hdel.
    injection Hrun as -> ->.
    destruct answer as [e|].
    + apply store_delete_err in Hdel as ->.
      destruct Hwa as [->|(Hnone & -> & Hca)]; [by left|right].
      split_and!; [done..|].
      unfold managed_payload. fold childKey. by rewrite Hca, lookup_insert_eq.
    + apply store_delete_ok in Hdel as [_ ->]. cbn.
      change (corev1.key (corev1.set_Data ∅ wc)) with (corev1.key wc).
      assert (corev1.key wc = childKey ∧
              delete childKey (childSecrets wa) = delete childKey (childSecrets w))
        as [-> Hgone].
      { destruct Hwa as [->|(Hnone & -> & Hca)].
        - split; [by apply Hown|done].
        - split; [done|]. by rewrite Hca, delete_insert_eq. }
      split; [done|].
      unfold managed_payload; cbn. fold childKey. by rewrite lookup_delete_eq.
Qed.

(** Scenario B: the only reference fails to resolve; the child, just created,
    is deleted and the cycle asks to be requeued after 5 seconds.  The same
    references with a child that holds data from an earlier cycle: the cycle
    returns no error and the store no longer holds the child. *)
Lemma Reconcile_total_failure_deletes_witness :
  (apiserver (GetCloudSecret (ctrl.NamespacedName Scenario.req))
             Scenario.scenarioB).1 = Ok Scenario.bad_ref ∧
  secretsv1.Data (secretsv1.Spec Scenario.bad_ref) ≠ ∅ ∧
  resolver_calls (trace_of (Scenario.run_cycle Scenario.scenarioB))
    = [("bad", Err Scenario.unavailable)] ∧
  (∃ childSecret,
    last (store_writes (trace_of (Scenario.run_cycle Scenario.scenarioB)))
      = Some (Delete (corev1.set_Data ∅ childSecret))) ∧
  managed_payload Scenario.childName Scenario.bad_ref Scenario.stale_child
    = Some (corev1.Data Scenario.old_child) ∧
  err_of (Scenario.run_cycle Scenario.stale_child) = None ∧
  managed_payload Scenario.childName Scenario.bad_ref
    (state_of (Scenario.run_cycle Scenario.stale_child)) = None.
Proof.
  destruct Reconcile_total_failure_deletes as [Hcalls Hstore].
  split_and!; [by_compute..| |by_compute|by_compute|].
  - destruct (Hcalls World apiserver Scenario.childName
                canonical_range Scenario.req Scenario.scenarioB Scenario.bad_ref)
      as (childSecret & answer & _ & _ & Hlast & _); [by_compute..| |].
    { intros name r Hin.
      assert (resolver_calls (trace_of (Scenario.run_cycle Scenario.scenarioB))
              = [("bad", Err Scenario.unavailable)]) as Heq by by_compute.
      unfold Scenario.run_cycle, cycle in Heq. rewrite Heq in Hin.
      elem_cases Hin. injection Hin as _ ->. by eexists. }
    by exists childSecret.
  - pose proof (Hstore Scenario.childName canonical_range Scenario.req
                  Scenario.stale_child Scenario.bad_ref) as Hend.
    assert (err_of (Scenario.run_cycle Scenario.stale_child) = None) as Herr
      by by_compute.
    unfold Scenario.run_cycle in Herr |- *. cbv zeta in Hend. rewrite Herr in Hend.
    apply Hend.
    + by_compute.
    + by_compute.
    + intros k v Hk.
      change (secretsv1.Data (secretsv1.Spec Scenario.bad_ref))
        with ({[ "db" := "bad" ]} : gmap string string) in Hk.
      apply lookup_singleton_Some in Hk as [_ <-].
      exists Scenario.unavailable. by_compute.
    + intros old Hold.
      assert (childSecrets Scenario.stale_child
                !! secretsv1.GetChildSecretKey Scenario.childName Scenario.bad_ref
              = Some Scenario.old_child) as Heq by by_compute.
      rewrite Heq in Hold. injection Hold as <-. by_compute.
Defined.

(** C6, as stated, fails.  The references are empty, the parent is found and
    the child is absent, so the child is created; the creation fails and
    [Reconcile] returns that error with [ctrl.Result{}]: the cycle does not
    terminate successfully and the returned interval is 0, not the period. *)
Lemma no_references_create_failure :
  (apiserver (GetCloudSecret (ctrl.NamespacedName Scenario.req))
             Scenario.create_fails).1 = Ok Scenario.no_refs ∧
  secretsv1.Data (secretsv1.Spec Scenario.no_refs) = ∅ ∧
  (apiserver (GetSecret (secretsv1.GetChildSecretKey Scenario.childName Scenario.no_refs))
             Scenario.create_fails).1 = Err errNotFound ∧
  err_of (Scenario.run_cycle Scenario.create_fails) = Some Scenario.ioError ∧
  ctrl.RequeueAfter (res_of (Scenario.run_cycle Scenario.create_fails)) = 0 ∧
  ctrl.RequeueAfter (res_of (Scenario.run_cycle Scenario.create_fails))
    ≠ recDelay_of Scenario.no_refs.
Proof. split_and!; by_compute. Qed.

(** C6, amended.  In a cycle in which the references are empty, the parent was
    found, and the child was found or its lookup answered NotFound: the
    resolver is never called and no delete or update is made.  If the child
    was found there is no store write at all and the cycle terminates
    successfully with the base requeue interval, syncPeriod.  If the child was
    absent the only store write is the creation of the empty child; when that
    succeeds the cycle terminates successfully with the base interval, and when
    it fails the cycle returns the creation's error with no requeue
    interval. *)
Theorem Reconcile_no_references {S} (h : Handler S) childName rng req s cs :
  (h (GetCloudSecret (ctrl.NamespacedName req)) s).1 = Ok cs →
  secretsv1.Data (secretsv1.Spec cs) = ∅ →
  let childKey := secretsv1.GetChildSecretKey childName cs in
  let empty := secretsv1.InitChildSecret childName cs in
  (∀ e0, (h (GetSecret childKey)
            (h (GetCloudSecret (ctrl.NamespacedName req)) s).2).1 = Err e0 →
         client.IsNotFound e0 = true) →
  let out := run h (Reconcile childName rng req) s in
  resolver_calls (trace_of out) = [] ∧
  corev1.Data empty = ∅ ∧
  ctrl.RequeueAfter (base_result cs) = recDelay_of cs ∧
  ( (∃ found, ev (GetSecret childKey) (Ok found) ∈ trace_of out ∧
       store_writes (trace_of out) = [] ∧
       err_of out = None ∧ res_of out = base_result cs)
  ∨ (∃ e0 created,
       ev (GetSecret childKey) (Err e0) ∈ trace_of out ∧
       client.IsNotFound e0 = true ∧
       ev (Create empty) (Ok created) ∈ trace_of out ∧
       store_writes (trace_of out) = [Create empty] ∧
       err_of out = None ∧ res_of out = base_result cs)
  ∨ (∃ e0 err,
       ev (GetSecret childKey) (Err e0) ∈ trace_of out ∧
       client.IsNotFound e0 = true ∧
       ev (Create empty) (Err err) ∈ trace_of out ∧
       store_writes (trace_of out) = [Create empty] ∧
       err_of out = Some err ∧ res_of out = ctrl.Result_zero) ).
Proof.
  intros Hget Hrefs childKey empty Hnf out; subst out childKey empty.
  run_cases childName rng h req s Hout Hrep.
  outcome_inv Hout; destruct Hrep as [Hrep Hrest]; try congruence;
    assert (cs' = cs) as -> by congruence.
  - (* the child could not be created *)
    inversion Hens as [| |e0 err' Hr Hpre]; subst.
    destruct Hrest as [Hchild _].
    split_and!; try done.
    right; right. exists e0, e.
    split_and!; try done; [by elem_solve|by apply Hnf|by elem_solve].
  - (* no references *)
    split_and!; try done. { by trace_simpl. }
    inversion Hens as [found Hr Hpre|e0 created Hr Hpre|]; subst.
    + left. exists child. split_and!; try done. by elem_solve.
    + destruct Hrest as [Hchild _].
      right; left. exists e0, child.
      split_and!; try done; [by elem_solve|by apply Hnf|by elem_solve].
  - by apply len_zero in Hrefs.
  - by apply len_zero in Hrefs.
Qed.

(** No references and a child that holds data from earlier: the cycle calls
    nothing but the two lookups. *)
Lemma Reconcile_no_references_witness :
  (apiserver (GetCloudSecret (ctrl.NamespacedName Scenario.req))
             Scenario.no_refs_found).1 = Ok Scenario.no_refs ∧
  secretsv1.Data (secretsv1.Spec Scenario.no_refs) = ∅ ∧
  (apiserver (GetSecret (secretsv1.GetChildSecretKey Scenario.childName Scenario.no_refs))
             Scenario.no_refs_found).1 = Ok Scenario.old_child ∧
  resolver_calls (trace_of (Scenario.run_cycle Scenario.no_refs_found)) = [] ∧
  ctrl.RequeueAfter (base_result Scenario.no_refs) = recDelay_of Scenario.no_refs.
Proof.
  split_and!; [by_compute..| |].
  - apply (Reconcile_no_references apiserver Scenario.childName canonical_range
             Scenario.req Scenario.no_refs_found Scenario.no_refs);
      [by_compute..|].
    intros e0 Hchild. vm_compute in Hchild. discriminate Hchild.
  - apply (Reconcile_no_references apiserver Scenario.childName canonical_range
             Scenario.req Scenario.no_refs_found Scenario.no_refs);
      [by_compute..|].
    intros e0 Hchild. vm_compute in Hchild. discriminate Hchild.
Defined.

(** C7.  When the DesiredSecret lookup fails, [Reconcile] returns
    [ctrl.Result{}], so a requeue interval of 0, makes no store write and never
    calls the resolver.  If the failure is NotFound the returned error is nil:
    the cycle terminates successfully.  Any other failure is returned as the
    error. *)
Theorem Reconcile_parent_lookup_failed {S} (h : Handler S) childName rng req s err :
  (h (GetCloudSecret (ctrl.NamespacedName req)) s).1 = Err err →
  let out := run h (Reconcile childName rng req) s in
  (client.IsNotFound err = true → err_of out = None) ∧
  (client.IsNotFound err = false → err_of out = Some err) ∧
  res_of out = ctrl.Result_zero ∧
  ctrl.RequeueAfter (res_of out) = 0 ∧
  store_writes (trace_of out) = [] ∧
  resolver_calls (trace_of out) = [].
Proof.
  intros Hget out; subst out.
  run_cases childName rng h req s Hout Hrep.
  outcome_inv Hout; destruct Hrep as [Hrep _]; try congruence.
  assert (e = err) as -> by congruence.
  split_and!; try done; cbn; by intros ->.
Qed.

(** Scenario D: the DesiredSecret was deleted upstream. *)
Lemma Reconcile_parent_lookup_failed_witness :
  (apiserver (GetCloudSecret (ctrl.NamespacedName Scenario.req))
             Scenario.scenarioD).1 = Err errNotFound ∧
  client.IsNotFound errNotFound = true ∧
  err_of (Scenario.run_cycle Scenario.scenarioD) = None ∧
  ctrl.RequeueAfter (res_of (Scenario.run_cycle Scenario.scenarioD)) = 0 ∧
  store_writes (trace_of (Scenario.run_cycle Scenario.scenarioD)) = [] ∧
  resolver_calls (trace_of (Scenario.run_cycle Scenario.scenarioD)) = [].
Proof.
  destruct (Reconcile_parent_lookup_failed apiserver Scenario.childName
              canonical_range Scenario.req Scenario.scenarioD errNotFound)
    as (Hnil & _ & _ & Hafter & Hwrites & Hcalls); [by_compute|].
  split_and!; [by_compute|by_compute|by apply Hnil|done..].
Defined.

(** C8.  Whenever [Reconcile] returns a non-nil error, what it returns with
    it is [ctrl.Result{}]: the requeue interval is 0, whatever interval the
    cycle had computed. *)
Theorem Reconcile_error_no_requeue {S} (h : Handler S) childName rng req s :
  let out := run h (Reconcile childName rng req) s in
  err_of out ≠ None →
  res_of out = ctrl.Result_zero ∧ ctrl.RequeueAfter (res_of out) = 0.
Proof.
  intros out; subst out.
  run_cases childName rng h req s Hout Hrep.
  intros Herr.
  outcome_inv Hout; try done;
    destruct ans; cbn in Hfin; by simplify_eq.
Qed.

(** Scenario A with a failing update: the cycle had computed 60 seconds and
    returns the update's error with an interval of 0. *)
Lemma Reconcile_error_no_requeue_witness :
  err_of (Scenario.run_cycle Scenario.update_fails) = Some Scenario.ioError ∧
  ctrl.RequeueAfter (res_of (Scenario.run_cycle Scenario.update_fails)) = 0.
Proof.
  split; [by_compute|].
  apply (Reconcile_error_no_requeue apiserver Scenario.childName canonical_range
           Scenario.req Scenario.update_fails).
  by_compute.
Defined.

(** C9, as stated, fails.  Two consecutive cycles on the same DesiredSecret,
    the resolver answering the same both times and nothing else touching the
    store.  The first cycle creates the child and its update meets an I/O
    failure; the second cycle's update goes through.  After the first cycle
    the ManagedSecret's payload is empty, after the second it holds [db]. *)
Lemma idempotence_broken_by_store_error :
  (apiserver (GetCloudSecret (ctrl.NamespacedName Scenario.req))
             Scenario.update_fails).1 = Ok Scenario.one_ref ∧
  gcpSecrets (with_fault Scenario.no_fault
                (state_of (Scenario.run_cycle Scenario.update_fails)))
    = gcpSecrets Scenario.update_fails ∧
  managed_payload Scenario.childName Scenario.one_ref
    (state_of (Scenario.run_cycle Scenario.update_fails)) = Some ∅ ∧
  managed_payload Scenario.childName Scenario.one_ref
    (state_of (Scenario.run_cycle
       (with_fault Scenario.no_fault
          (state_of (Scenario.run_cycle Scenario.update_fails)))))
    = Some {[ "db" := Scenario.b "p1" ]} ∧
  managed_payload Scenario.childName Scenario.one_ref
    (state_of (Scenario.run_cycle
       (with_fault Scenario.no_fault
          (state_of (Scenario.run_cycle Scenario.update_fails)))))
    ≠ managed_payload Scenario.childName Scenario.one_ref
        (state_of (Scenario.run_cycle Scenario.update_fails)).
Proof. split_and!; by_compute. Qed.

(** C9, amended.  For every DesiredSecret the lookup finds, two consecutive
    cycles that both complete without a store error, with the resolver
    answering the same for each reference in both, leave the same
    ManagedSecret payload: the second cycle changes nothing in the store of
    child secrets.  Nothing else writes to the store between the cycles; the
    iteration order of the references and the store's transient failures may
    differ from one cycle to the next. *)
Theorem cycle_idempotent childName rng1 rng2 req w flt2 cs :
  (apiserver (GetCloudSecret (ctrl.NamespacedName req)) w).1 = Ok cs →
  let first := cycle childName rng1 req w in
  let second := cycle childName rng2 req (with_fault flt2 (state_of first)) in
  err_of first = None →
  err_of second = None →
  childSecrets (state_of second) = childSecrets (state_of first) ∧
  managed_payload childName cs (state_of second)
    = managed_payload childName cs (state_of first).
Proof.
  intros Hget first second; subst first second.
  pose proof (cycle_world childName rng1 req w) as H1.
  destruct (cycle childName rng1 req w) as [[[res1 e1] w1] tr1].
  unfold err_of, state_of in H1 |- *; cbn [fst snd] in H1 |- *.
  pose proof (cycle_world childName rng2 req (with_fault flt2 w1)) as H2.
  destruct (cycle childName rng2 req (with_fault flt2 w1)) as [[[res2 e2] w2] tr2].
  unfold err_of, state_of in H2 |- *; cbn [fst snd] in H2 |- *.
  intros -> ->.
  assert (childSecrets w2 = childSecrets w1) as Heq;
    [|split; [done|]; unfold managed_payload; by rewrite Heq].
  symmetry in H1, H2.
  apply (reconcile_world_ok _ _ _ _ _ Hget) in H1
    as (Hcs1 & Hgcp1 & wc & ca & Hwc & Hca & Hend1).
  (* the second cycle: the parent is found again, or nothing happens *)
  destruct (apiserver (GetCloudSecret (ctrl.NamespacedName req)) (with_fault flt2 w1)).1
    as [cs2|e2] eqn:Hget2.
  2:{ rewrite (reconcile_world_no_parent _ _ _ _ Hget2) in H2.
      by injection H2 as _ <-. }
  assert (cs2 = cs) as -> by (by eapply apiserver_parent_with_fault).
  apply (reconcile_world_ok _ _ _ _ _ Hget2) in H2
    as (_ & _ & wc2 & cb & Hwc2 & Hcb & Hend2).
  cbn [with_fault childSecrets gcpSecrets] in Hcb, Hend2. rewrite Hgcp1 in Hend2.
  set (key := secretsv1.GetChildSecretKey childName cs) in *.
  set (refs := secretsv1.Data (secretsv1.Spec cs)) in *.
  set (payload := resolved_payload (gcpSecrets w) refs) in *.
  destruct Hend1 as [(Hrefs & Hw1)|[(Hrefs & Hpay & Hsome & Hw1)|(Hrefs & Hpay & Hsome & Hw1)]];
    destruct Hend2 as [(Hrefs' & Hw2)|[(Hrefs' & Hpay' & Hsome' & Hw2)|(Hrefs' & Hpay' & Hsome' & Hw2)]];
    try done.
  - (* no references *)
    rewrite Hw2, Hw1.
    destruct Hcb as [->|(Hnone & _)]; [done|]. rewrite Hw1 in Hnone. congruence.
  - (* both cycles delete *)
    rewrite Hw2.
    destruct Hcb as [->|(Hnone & -> & ->)].
    + (* found again: the entry at the child key survived the first delete *)
      rewrite Hw1 in Hwc2.
      apply lookup_delete_Some in Hwc2 as [Hne Hwc2].
      assert (wc2 = wc) as -> by congruence.
      rewrite Hw1, lookup_delete_eq in Hsome'. by destruct Hsome'.
    + change (corev1.key (secretsv1.InitChildSecret childName cs)) with key.
      rewrite delete_insert_eq. by apply delete_id.
  - (* both cycles update *)
    rewrite Hw2.
    destruct Hcb as [->|(Hnone & _)].
    + rewrite Hw1 in Hwc2 |- *.
      destruct (decide (corev1.key wc = key)) as [Hk|Hk].
      * rewrite Hk, lookup_insert_eq in Hwc2. injection Hwc2 as <-.
        change (corev1.key (corev1.set_Data payload wc)) with (corev1.key wc).
        by rewrite insert_insert_eq.
      * rewrite lookup_insert_ne in Hwc2 by done.
        assert (wc2 = wc) as -> by congruence.
        by rewrite insert_insert_eq.
    + rewrite Hw1 in Hnone.
      destruct (decide (corev1.key wc = key)) as [Hk|Hk].
      * by rewrite Hk, lookup_insert_eq in Hnone.
      * rewrite lookup_insert_ne in Hnone by done. congruence.
Qed.

(** Scenario A, twice: both cycles succeed and leave [db] resolved. *)
Lemma cycle_idempotent_witness :
  (apiserver (GetCloudSecret (ctrl.NamespacedName Scenario.req))
             Scenario.scenarioA).1 = Ok Scenario.one_ref ∧
  err_of (Scenario.run_cycle Scenario.scenarioA) = None ∧
  err_of (Scenario.run_cycle
            (with_fault Scenario.no_fault
               (state_of (Scenario.run_cycle Scenario.scenarioA)))) = None ∧
  managed_payload Scenario.childName Scenario.one_ref
    (state_of (Scenario.run_cycle
       (with_fault Scenario.no_fault
          (state_of (Scenario.run_cycle Scenario.scenarioA)))))
  = managed_payload Scenario.childName Scenario.one_ref
      (state_of (Scenario.run_cycle Scenario.scenarioA)).
Proof.
  split_and!; [by_compute..|].
  apply (cycle_idempotent Scenario.childName canonical_range canonical_range
           Scenario.req Scenario.scenarioA Scenario.no_fault Scenario.one_ref);
    by_compute.
Defined.

(** C10.  Every object [Reconcile] hands to [Update] is the working copy of
    the child with only its [Data] replaced: the working copy is the object the
    child lookup returned or, when the child was created this cycle, the
    freshly initialised object as [Create] handed it back; its metadata
    (identity, ownership) and its type reach [Update] unchanged. *)
Theorem Reconcile_update_replaces_only_data {S} (h : Handler S)
    childName rng req s obj :
  let out := run h (Reconcile childName rng req) s in
  Update obj ∈ store_writes (trace_of out) →
  ∃ cs workingCopy,
    ev (GetCloudSecret (ctrl.NamespacedName req)) (Ok cs) ∈ trace_of out ∧
    ( ev (GetSecret (secretsv1.GetChildSecretKey childName cs)) (Ok workingCopy)
        ∈ trace_of out
    ∨ ev (Create (secretsv1.InitChildSecret childName cs)) (Ok workingCopy)
        ∈ trace_of out ) ∧
    obj = corev1.set_Data (corev1.Data obj) workingCopy ∧
    corev1.ObjectMeta obj = corev1.ObjectMeta workingCopy ∧
    corev1.SecretType obj = corev1.SecretType workingCopy.
Proof.
  intros out; subst out.
  run_cases childName rng h req s Hout Hrep.
  intros Hin.
  outcome_inv Hout; revert Hin; trace_simpl; rewrite ?app_nil_r; intros Hin;
    try (destruct (Ensured_store_writes _ _ _ _ Hens) as [Hw|Hw];
         rewrite Hw in Hin); cbn in Hin; elem_cases Hin.
  - injection Hin as ->.
    exists cs', child. split_and!; try done.
    + by left.
    + destruct (Ensured_working_copy _ _ _ _ Hens) as [Hwc|Hwc]; [left|right];
        right; rewrite elem_of_app; by left.
  - injection Hin as ->.
    exists cs', child. split_and!; try done.
    + by left.
    + destruct (Ensured_working_copy _ _ _ _ Hens) as [Hwc|Hwc]; [left|right];
        right; rewrite elem_of_app; by left.
Qed.

(** Scenario A: the child is created this cycle and updated with [db]; the
    updated object has the metadata and type of the created one. *)
Lemma Reconcile_update_replaces_only_data_witness :
  Update (corev1.set_Data {[ "db" := Scenario.b "p1" ]}
            (secretsv1.InitChildSecret Scenario.childName Scenario.one_ref))
    ∈ store_writes (trace_of (Scenario.run_cycle Scenario.scenarioA)) ∧
  ∃ workingCopy,
    corev1.ObjectMeta workingCopy
      = corev1.ObjectMeta (secretsv1.InitChildSecret Scenario.childName Scenario.one_ref) ∧
    corev1.SecretType workingCopy = "Opaque".
Proof.
  assert (Update (corev1.set_Data {[ "db" := Scenario.b "p1" ]}
                    (secretsv1.InitChildSecret Scenario.childName Scenario.one_ref))
            ∈ store_writes (trace_of (Scenario.run_cycle Scenario.scenarioA)))
    as Hin by (vm_compute; elem_solve).
  split; [done|].
  destruct (Reconcile_update_replaces_only_data apiserver Scenario.childName
              canonical_range Scenario.req Scenario.scenarioA _ Hin)
    as (cs & workingCopy & _ & _ & _ & Hmeta & Htype).
  exists workingCopy. by rewrite <- Hmeta, <- Htype.
Defined.

(** * Further properties of [Reconcile] *)

(** ** Failures and the log *)

Lemma store_failures_cons e tr :
  store_failures (e :: tr) =
    match failure_of e with
    | Some x => x :: store_failures tr
    | None => store_failures tr
    end.
Proof. done. Qed.

Lemma store_failures_app tr1 tr2 :
  store_failures (tr1 ++ tr2) = store_failures tr1 ++ store_failures tr2.
Proof. apply omap_app. Qed.

Lemma store_failures_resolve_trace (atts : list Attempt) :
  store_failures (resolve_trace atts) = [].
Proof. induction atts as [|[[k v] [a|e]] atts IH]; [done|..]; apply IH. Qed.

Lemma Ensured_store_failures childName cs r pre :
  Ensured childName cs r pre →
  store_failures pre = match r with Ok _ => [] | Err err => [err] end.
Proof. by destruct 1. Qed.

Ltac failures_simpl :=
  rewrite ?store_failures_cons, ?store_failures_app,
          ?store_failures_resolve_trace;
  try erewrite Ensured_store_failures by eassumption;
  cbn [failure_of ev]; rewrite ?store_failures_cons; cbn [failure_of ev].

Lemma logged_failures_cons e tr :
  logged_failures (e :: tr) =
    match logged_of e with
    | Some x => x :: logged_failures tr
    | None => logged_failures tr
    end.
Proof. done. Qed.

Lemma logged_failures_app tr1 tr2 :
  logged_failures (tr1 ++ tr2) = logged_failures tr1 ++ logged_failures tr2.
Proof. apply omap_app. Qed.

Lemma logged_failures_resolve_trace (atts : list Attempt) :
  logged_failures (resolve_trace atts) = failed_calls (call_of <$> atts).
Proof.
  induction atts as [|[[k v] [a|e]] atts IH]; [done|..].
  - apply IH.
  - change (logged_failures (resolve_trace ((k, v, Err e) :: atts)))
      with ((v, e) :: logged_failures (resolve_trace atts)).
    by rewrite IH.
Qed.

Lemma Ensured_logged_failures childName cs r pre :
  Ensured childName cs r pre → logged_failures pre = [].
Proof. by destruct 1. Qed.

Lemma Ensured_only_creates childName cs r pre c :
  Ensured childName cs r pre → c ∈ store_writes pre → ∃ obj, c = Create obj.
Proof.
  intros Hens Hin.
  destruct (Ensured_store_writes _ _ _ _ Hens) as [Hw|Hw]; rewrite Hw in Hin;
    elem_cases Hin. eauto.
Qed.

(** ** The loop against a resolver that keeps no state *)

Lemma answered_flag (rng : MapRange) gcp refs :
  (resolve_result (answered gcp (rng refs)) (false, ∅)).1 = true
  ↔ ∃ k v e, refs !! k = Some v ∧ gcp v = Err e.
Proof.
  rewrite resolve_result_flag. split.
  - intros [?|(k & v & e & Hin)]; [done|].
    apply list_elem_of_fmap in Hin as ([k' v'] & [= -> -> He] & Hin).
    exists k', v', e. split; [by apply (elem_of_range rng)|done].
  - intros (k & v & e & Hk & He). right. exists k, v, e.
    rewrite <- He.
    apply (list_elem_of_fmap_2 (λ kv, (kv, gcp kv.2)) _ (k, v)).
    by apply elem_of_range.
Qed.

(** The flag and the payload do not depend on the iteration order. *)
Lemma resolve_result_order (rng1 rng2 : MapRange) gcp refs :
  resolve_result (answered gcp (rng1 refs)) (false, ∅)
  = resolve_result (answered gcp (rng2 refs)) (false, ∅).
Proof.
  pose proof (answered_flag rng1 gcp refs) as H1.
  pose proof (answered_flag rng2 gcp refs) as H2.
  pose proof (resolved_payload_range rng1 gcp refs false) as P1.
  pose proof (resolved_payload_range rng2 gcp refs false) as P2.
  destruct (resolve_result (answered gcp (rng1 refs)) (false, ∅)) as [f1 d1].
  destruct (resolve_result (answered gcp (rng2 refs)) (false, ∅)) as [f2 d2].
  cbn in *. subst d1 d2. f_equal.
  destruct f1, f2; try done.
  - symmetry. apply H2, H1. done.
  - apply H1, H2. done.
Qed.

Section Quiet.
Context {S : Type} (h : Handler S).
Hypothesis resolver_quiet : ∀ r s, (h (AccessSecretVersion r) s).2 = s.
Hypothesis logger_quiet : ∀ e what kv s, (h (LogError e what kv) s).2 = s.

Lemma resolveAll_quiet entries f d s :
  run h (resolveAll entries f d) s =
    (resolve_result (answered (answers_in h s) entries) (f, d), s,
     resolve_trace (answered (answers_in h s) entries)).
Proof.
  revert f d. induction entries as [|[k v] entries IH]; intros f d; [done|].
  cbn.
  pose proof (resolver_quiet {| secrets.Name := v |} s) as Hs.
  assert (answers_in h s v = (h (AccessSecretVersion {| secrets.Name := v |}) s).1)
    as Ha by done.
  destruct (h (AccessSecretVersion {| secrets.Name := v |}) s) as [[a|e] s1];
    cbn in Hs, Ha; subst s1; rewrite Ha; cbn.
  - by rewrite IH.
  - pose proof (logger_quiet e "unable to access secret" ["secret_path"; v] s) as Hl.
    destruct (h (LogError _ _ _) s) as [[] s2]. cbn in *; subst s2.
    by rewrite IH.
Qed.
End Quiet.

(** ** Cycles against the store, with and without failures *)

Lemma cycle_state childName rng req w :
  state_of (cycle childName rng req w) = (reconcile_world childName req w).2.
Proof. by rewrite <- (cycle_world childName rng). Qed.

Ltac world_unfold :=
  unfold reconcile_world, ensure_world, store_get, store_create, store_update,
    store_delete, set_childSecrets, settled.

(** The name of an object does not change with its [Data]; the initialised
    child has the child's name. *)
Ltac key_norm :=
  repeat match goal with
  | |- context [corev1.key (corev1.set_Data ?p ?c)] =>
      change (corev1.key (corev1.set_Data p c)) with (corev1.key c)
  | |- context [corev1.key (secretsv1.InitChildSecret ?f ?cs)] =>
      change (corev1.key (secretsv1.InitChildSecret f cs))
        with (secretsv1.GetChildSecretKey f cs)
  end.

Lemma reconcile_world_absent childName req w :
  cloudSecrets w !! ctrl.NamespacedName req = None →
  (reconcile_world childName req w).2 = w.
Proof.
  intros HC. world_unfold. rewrite HC. by destruct (fault w _).
Qed.

Lemma reconcile_world_clean childName req w cs :
  cloudSecrets w !! ctrl.NamespacedName req = Some cs →
  fault w = (λ _, None) →
  (reconcile_world childName req w).2
  = set_childSecrets (λ _, settled childName cs (gcpSecrets w) (childSecrets w)) w.
Proof.
  destruct w as [C A G fl]; cbn. intros HC ->.
  world_unfold; cbn. rewrite HC.
  destruct (A !! secretsv1.GetChildSecretKey childName cs) as [found|] eqn:HA; cbn.
  - case_decide; [done|]. key_norm.
    case_decide; cbn; by destruct (A !! corev1.key found).
  - key_norm.
    rewrite HA; cbn. case_decide; [done|]. rewrite lookup_insert_eq.
    case_decide; cbn; key_norm; by rewrite lookup_insert_eq.
Qed.

(** What a cycle, failures included, does to the child secrets of a found
    parent: nothing, or it only creates the child, or it does all a cycle
    without failures does. *)
Lemma reconcile_world_effect childName req w cs :
  cloudSecrets w !! ctrl.NamespacedName req = Some cs →
  let key := secretsv1.GetChildSecretKey childName cs in
  let w1 := (reconcile_world childName req w).2 in
  cloudSecrets w1 = cloudSecrets w ∧ gcpSecrets w1 = gcpSecrets w ∧
  ( childSecrets w1 = childSecrets w
  ∨ (childSecrets w !! key = None ∧
     childSecrets w1
       = <[key := secretsv1.InitChildSecret childName cs]> (childSecrets w))
  ∨ childSecrets w1 = settled childName cs (gcpSecrets w) (childSecrets w) ).
Proof.
  destruct w as [C A G fl]; cbn. intros HC.
  world_unfold; cbn. rewrite HC.
  destruct (fl (GetCloudSecret _)); cbn; [by split_and!; [..|left]|].
  destruct (fl (GetSecret _)); cbn.
  - destruct (fl (Create _)); cbn; [by split_and!; [..|left]|].
    key_norm.
    destruct (A !! secretsv1.GetChildSecretKey childName cs) as [found|] eqn:HA; cbn;
      [by split_and!; [..|left]|].
    case_decide; cbn; [by split_and!; [..|right; left]|].
    case_decide; cbn; key_norm.
    + destruct (fl (Delete _)); cbn; [by split_and!; [..|right; left]|].
      rewrite lookup_insert_eq; cbn. split_and!; [done..|right; right]. done.
    + destruct (fl (Update _)); cbn; [by split_and!; [..|right; left]|].
      rewrite lookup_insert_eq; cbn. split_and!; [done..|right; right]. done.
  - destruct (A !! secretsv1.GetChildSecretKey childName cs) as [found|] eqn:HA; cbn.
    + case_decide; cbn; [by split_and!; [..|left]|].
      case_decide; cbn; key_norm.
      * destruct (fl (Delete _)); cbn; [by split_and!; [..|left]|].
        destruct (A !! corev1.key found); cbn; [|by split_and!; [..|left]].
        split_and!; [done..|right; right]. done.
      * destruct (fl (Update _)); cbn; [by split_and!; [..|left]|].
        destruct (A !! corev1.key found); cbn; [|by split_and!; [..|left]].
        split_and!; [done..|right; right]. done.
    + destruct (fl (Create _)); cbn; [by split_and!; [..|left]|].
      key_norm.
      rewrite HA; cbn.
      case_decide; cbn; [by split_and!; [..|right; left]|].
      case_decide; cbn; key_norm.
      * destruct (fl (Delete _)); cbn; [by split_and!; [..|right; left]|].
        rewrite lookup_insert_eq; cbn. split_and!; [done..|right; right]. done.
      * destruct (fl (Update _)); cbn; [by split_and!; [..|right; left]|].
        rewrite lookup_insert_eq; cbn. split_and!; [done..|right; right]. done.
Qed.

Lemma settled_created childName cs gcp A :
  A !! secretsv1.GetChildSecretKey childName cs = None →
  settled childName cs gcp
    (<[secretsv1.GetChildSecretKey childName cs
         := secretsv1.InitChildSecret childName cs]> A)
  = settled childName cs gcp A.
Proof.
  intros HA. unfold settled. rewrite HA, lookup_insert_eq. done.
Qed.

Lemma settled_idempotent childName cs gcp A :
  settled childName cs gcp (settled childName cs gcp A) = settled childName cs gcp A.
Proof.
  unfold settled.
  set (key := secretsv1.GetChildSecretKey childName cs).
  set (init := secretsv1.InitChildSecret childName cs).
  set (payload := resolved_payload gcp _).
  assert (corev1.key init = key) as Hinit by done.
  assert (∀ c, corev1.key (corev1.set_Data payload c) = corev1.key c) as Hset by done.
  destruct (A !! key) as [found|] eqn:HA; cbn [fst snd].
  - case_decide as Hrefs; [by rewrite HA|].
    destruct (A !! corev1.key found) as [other|] eqn:Hother;
      [|by rewrite HA; cbn; rewrite ?Hother].
    case_decide as Hpay.
    + destruct (decide (corev1.key found = key)) as [Hk|Hk].
      * rewrite Hk, lookup_delete_eq; cbn. rewrite Hinit, lookup_insert_eq.
        by rewrite delete_insert_eq, delete_delete_eq.
      * rewrite lookup_delete_ne, HA by done; cbn. by rewrite lookup_delete_eq.
    + destruct (decide (corev1.key found = key)) as [Hk|Hk].
      * rewrite Hk, lookup_insert_eq; cbn [fst snd].
        rewrite Hset, Hk, lookup_insert_eq, insert_insert_eq. done.
      * rewrite lookup_insert_ne, HA by done; cbn [fst snd].
        by rewrite lookup_insert_eq, insert_insert_eq.
  - rewrite Hinit.
    case_decide as Hrefs; [by rewrite lookup_insert_eq|].
    rewrite lookup_insert_eq.
    case_decide as Hpay.
    + rewrite lookup_delete_eq; cbn [fst snd]. rewrite Hinit, lookup_insert_eq.
      by rewrite !delete_insert_eq, delete_delete_eq.
    + rewrite lookup_insert_eq; cbn [fst snd].
      rewrite Hset, Hinit, lookup_insert_eq, !insert_insert_eq. done.
Qed.

(** ** The properties *)

(** X1.  [Reconcile] logs every failed resolution, and nothing else, as
    "unable to access secret": the entries it logs under this message, each
    with the secret path and the error, are exactly the failed resolver calls
    of the cycle with their names and errors, in the order of the calls. *)
Theorem Reconcile_logs_failed_resolutions {S} (h : Handler S) childName rng req s :
  let out := run h (Reconcile childName rng req) s in
  logged_failures (trace_of out) = failed_calls (resolver_calls (trace_of out)).
Proof.
  intros out; subst out.
  run_cases childName rng h req s Hout Hrep.
  outcome_inv Hout; trace_simpl;
    rewrite ?logged_failures_cons, ?logged_failures_app,
            ?logged_failures_resolve_trace;
    try erewrite Ensured_logged_failures by eassumption;
    cbn [logged_of ev]; rewrite ?logged_failures_cons; cbn [logged_of ev];
    try done; destruct ans; cbn; by rewrite !app_nil_r.
Qed.

(** X2.  A cycle stops at its first failed store call.  Among the parent
    lookup, the create, the delete and the update of one cycle at most one
    fails; when none fails [Reconcile] returns no error, and when one fails it
    returns that very error, except for a parent lookup answered NotFound,
    which is the first call of the cycle and returns no error. *)
Theorem Reconcile_returns_the_store_failure {S} (h : Handler S) childName rng req s :
  let out := run h (Reconcile childName rng req) s in
  (store_failures (trace_of out) = [] ∧ err_of out = None)
  ∨ ∃ e, store_failures (trace_of out) = [e] ∧
         ( err_of out = Some e
         ∨ (head (trace_of out)
              = Some (ev (GetCloudSecret (ctrl.NamespacedName req)) (Err e)) ∧
            client.IsNotFound e = true ∧ err_of out = None) ).
Proof.
  intros out; subst out.
  run_cases childName rng h req s Hout Hrep.
  outcome_inv Hout; failures_simpl.
  - right. exists e. split; [done|]. cbn.
    destruct (client.IsNotFound e) eqn:Hnf; [right|left]; done.
  - right. exists e. by split; [|left].
  - left. by rewrite app_nil_r.
  - destruct ans as [e|]; cbn in Hfin; simplify_eq; cbn.
    + right. exists e. by split; [|left].
    + by left.
  - destruct ans as [e|]; cbn in Hfin; simplify_eq; cbn.
    + right. exists e. by split; [|left].
    + by left.
Qed.

(** X3.  The store writes of one cycle are at most one [Create], of the
    initialised child of some CloudSecret, followed by at most one closing
    write: a [Delete], of an object with empty [Data], or an [Update], of an
    object with non-empty [Data].  So a cycle never deletes and updates, never
    writes an empty payload, and never deletes a child it has data for. *)
Theorem Reconcile_store_writes_shape {S} (h : Handler S) childName rng req s :
  let out := run h (Reconcile childName rng req) s in
  ∃ created closing,
    store_writes (trace_of out) = created ++ closing ∧
    (created = [] ∨
     ∃ cs, created = [Create (secretsv1.InitChildSecret childName cs)]) ∧
    (closing = [] ∨
     (∃ obj, closing = [Delete obj] ∧ corev1.Data obj = ∅) ∨
     (∃ obj, closing = [Update obj] ∧ corev1.Data obj ≠ ∅)).
Proof.
  intros out; subst out.
  run_cases childName rng h req s Hout Hrep.
  outcome_inv Hout; trace_simpl; rewrite ?app_nil_r.
  - exists [], []. split_and!; [done|by left|by left].
  - exists (store_writes pre), []. rewrite app_nil_r. split_and!; [done| |by left].
    destruct (Ensured_store_writes _ _ _ _ Hens) as [->| ->]; [by left|right; eauto].
  - exists (store_writes pre), []. rewrite app_nil_r. split_and!; [done| |by left].
    destruct (Ensured_store_writes _ _ _ _ Hens) as [->| ->]; [by left|right; eauto].
  - eexists (store_writes pre), [_]. split_and!; [done| |].
    + destruct (Ensured_store_writes _ _ _ _ Hens) as [->| ->]; [by left|right; eauto].
    + right; left. eexists. split; [done|]. by apply len_zero.
  - eexists (store_writes pre), [_]. split_and!; [done| |].
    + destruct (Ensured_store_writes _ _ _ _ Hens) as [->| ->]; [by left|right; eauto].
    + right; right. eexists. split; [done|]. cbn. by rewrite <- len_zero.
Qed.

(** X4.  The calls of one cycle come in three phases: first the lookups and
    the create, with no resolver call; then all the resolver calls of the
    cycle, with no store write among them; then the closing delete or update,
    with no resolver call.  No secret is resolved before the child exists:
    whenever the cycle makes a resolver call, the first phase holds the parent
    lookup answered with the CloudSecret and the lookup or the create of its
    child answered with the child.  The store is not written while secrets are
    being resolved. *)
Theorem Reconcile_phases {S} (h : Handler S) childName rng req s :
  let out := run h (Reconcile childName rng req) s in
  ∃ pre mid fin,
    trace_of out = pre ++ mid ++ fin ∧
    resolver_calls pre = [] ∧
    (∀ c, c ∈ store_writes pre → ∃ obj, c = Create obj) ∧
    (resolver_calls (trace_of out) ≠ [] →
       ∃ cs childSecret,
         ev (GetCloudSecret (ctrl.NamespacedName req)) (Ok cs) ∈ pre ∧
         ( ev (GetSecret (secretsv1.GetChildSecretKey childName cs)) (Ok childSecret)
             ∈ pre
         ∨ ev (Create (secretsv1.InitChildSecret childName cs)) (Ok childSecret)
             ∈ pre )) ∧
    store_writes mid = [] ∧
    resolver_calls mid = resolver_calls (trace_of out) ∧
    resolver_calls fin = [] ∧
    (∀ c, c ∈ store_writes fin → ∃ obj, c = Delete obj ∨ c = Update obj).
Proof.
  intros out; subst out.
  run_cases childName rng h req s Hout Hrep.
  outcome_inv Hout.
  - eexists _, [], []. rewrite !app_nil_r. split_and!; try done.
    + intros c Hin. vm_compute in Hin. by apply elem_of_nil in Hin.
    + intros c Hin. by apply elem_of_nil in Hin.
  - eexists _, [], []. rewrite !app_nil_r. split_and!; try done.
    + trace_simpl. done.
    + intros c. trace_simpl. apply (Ensured_only_creates _ _ _ _ _ Hens).
    + by trace_simpl.
    + by trace_simpl.
    + intros c Hin. by apply elem_of_nil in Hin.
  - eexists _, [], []. rewrite !app_nil_r. split_and!; try done.
    + trace_simpl. done.
    + intros c. trace_simpl. rewrite app_nil_r.
      apply (Ensured_only_creates _ _ _ _ _ Hens).
    + by trace_simpl.
    + by trace_simpl.
    + intros c Hin. by apply elem_of_nil in Hin.
  - exists (ev (GetCloudSecret (ctrl.NamespacedName req)) (Ok cs') :: pre),
      (resolve_trace atts),
      (ev (Delete (corev1.set_Data (resolve_result atts (false, ∅)).2 child)) ans
         :: (closing ans "unable to delete child secret"
               (accelerate (resolve_result atts (false, ∅)).1
                  (recDelay_of cs') (base_result cs'))).2).
    split_and!.
    + done.
    + by trace_simpl.
    + intros c. trace_simpl. apply (Ensured_only_creates _ _ _ _ _ Hens).
    + intros _. exists cs', child. split; [by left|].
      destruct (Ensured_working_copy _ _ _ _ Hens) as [Hwc|Hwc]; [left|right];
        by right.
    + apply store_writes_resolve_trace.
    + trace_simpl. by rewrite app_nil_r.
    + by trace_simpl.
    + intros c. trace_simpl. intros Hin. elem_cases Hin. eauto.
  - exists (ev (GetCloudSecret (ctrl.NamespacedName req)) (Ok cs') :: pre),
      (resolve_trace atts),
      (ev (LogInfo "updating child secret") tt
         :: ev (Update (corev1.set_Data (resolve_result atts (false, ∅)).2 child)) ans
         :: (closing ans "unable to update child secret"
               (accelerate (resolve_result atts (false, ∅)).1
                  (recDelay_of cs') (base_result cs'))).2).
    split_and!.
    + done.
    + by trace_simpl.
    + intros c. trace_simpl. apply (Ensured_only_creates _ _ _ _ _ Hens).
    + intros _. exists cs', child. split; [by left|].
      destruct (Ensured_working_copy _ _ _ _ Hens) as [Hwc|Hwc]; [left|right];
        by right.
    + apply store_writes_resolve_trace.
    + trace_simpl. by rewrite app_nil_r.
    + by trace_simpl.
    + intros c. trace_simpl. intros Hin. elem_cases Hin. eauto.
Qed.

(** X5.  When the parent is found, the answer to the child lookup decides the
    create: if the lookup returns the child, the cycle creates nothing; if it
    returns an error, the first store write of the cycle is the [Create] of the
    initialised child, and the cycle creates nothing else. *)
Theorem Reconcile_creates_iff_lookup_failed {S} (h : Handler S)
    childName rng req s cs :
  (h (GetCloudSecret (ctrl.NamespacedName req)) s).1 = Ok cs →
  let out := run h (Reconcile childName rng req) s in
  match (h (GetSecret (secretsv1.GetChildSecretKey childName cs))
           (h (GetCloudSecret (ctrl.NamespacedName req)) s).2).1 with
  | Ok _ => ∀ obj, Create obj ∉ store_writes (trace_of out)
  | Err _ =>
      head (store_writes (trace_of out))
        = Some (Create (secretsv1.InitChildSecret childName cs)) ∧
      ∀ obj, Create obj ∈ store_writes (trace_of out) →
             obj = secretsv1.InitChildSecret childName cs
  end.
Proof.
  intros Hget out; subst out.
  run_cases childName rng h req s Hout Hrep.
  outcome_inv Hout; destruct Hrep as [Hrep Hrest]; try congruence;
    assert (cs' = cs) as -> by congruence;
    inversion Hens; subst; destruct Hrest as [Hrest _]; rewrite Hrest;
    trace_simpl; rewrite ?app_nil_r;
    try (split; [done|]); intros obj Hin; elem_cases Hin;
    by simplify_eq.
Qed.

(** Scenario A, where the child is absent, and scenario C, where it is
    stored: the first creates the initialised child, the second nothing. *)
Lemma Reconcile_creates_iff_lookup_failed_witness :
  head (store_writes (trace_of (Scenario.run_cycle Scenario.scenarioA)))
    = Some (Create (secretsv1.InitChildSecret Scenario.childName Scenario.one_ref)) ∧
  ∀ obj, Create obj ∉ store_writes (trace_of (Scenario.run_cycle Scenario.scenarioC)).
Proof.
  split.
  - apply (Reconcile_creates_iff_lookup_failed apiserver Scenario.childName
             canonical_range Scenario.req Scenario.scenarioA Scenario.one_ref).
    by_compute.
  - apply (Reconcile_creates_iff_lookup_failed apiserver Scenario.childName
             canonical_range Scenario.req Scenario.scenarioC Scenario.two_refs).
    by_compute.
Defined.



(** X7.  The iteration order of the references does not matter.  When the
    resolver and the logger leave the state of the store alone, two cycles from
    the same state that range over the references in different orders return
    the same result and error, leave the same state, make the same store
    writes in the same order, and make the same resolver calls, in a different
    order at most. *)
Theorem Reconcile_order_independent {S} (h : Handler S) childName
    (rng1 rng2 : MapRange) req s :
  (∀ r s, (h (AccessSecretVersion r) s).2 = s) →
  (∀ e what kv s, (h (LogError e what kv) s).2 = s) →
  let out1 := run h (Reconcile childName rng1 req) s in
  let out2 := run h (Reconcile childName rng2 req) s in
  res_of out1 = res_of out2 ∧
  err_of out1 = err_of out2 ∧
  state_of out1 = state_of out2 ∧
  store_writes (trace_of out1) = store_writes (trace_of out2) ∧
  resolver_calls (trace_of out1) ≡ₚ resolver_calls (trace_of out2).
Proof.
  intros Hres Hlog out1 out2; subst out1 out2.
  unfold res_of, err_of, state_of, trace_of, Reconcile; cbn.
  destruct (h (GetCloudSecret _) s) as [[cs|err] s0]; cbn; [|done].
  rewrite !run_mbind; cbn [fst snd].
  destruct (run h (ensureChild childName cs) s0) as [[[childSecret|err] s1] pre];
    cbn [fst snd]; [|done].
  case_bool_decide as Hlen; [done|].
  rewrite !run_mbind, !(resolveAll_quiet h Hres Hlog); cbn [fst snd].
  rewrite (resolve_result_order rng1 rng2).
  destruct (resolve_result _ _) as [getSecretFail data].
  destruct (run h (if bool_decide (len data = 0) then _ else _) s1)
    as [[[res err] s2] fin].
  cbn [fst snd]. split_and!; try done.
  - rewrite !store_writes_cons, !store_writes_app, !store_writes_resolve_trace. done.
  - rewrite !resolver_calls_cons, !resolver_calls_app, !resolver_calls_resolve_trace.
    cbn [access_of ev]. do 2 f_equiv. unfold answered.
    by rewrite (range_perm rng1), (range_perm rng2).
Qed.

(** Scenario C, with two references of which one resolves, ranged over
    forwards and backwards: the resolver is asked in two different orders, and
    the cycles agree on everything else. *)
Lemma Reconcile_order_independent_witness :
  let out1 := cycle Scenario.childName canonical_range Scenario.req Scenario.scenarioC in
  let out2 := cycle Scenario.childName reversed_range Scenario.req Scenario.scenarioC in
  resolver_calls (trace_of out1) ≠ resolver_calls (trace_of out2) ∧
  res_of out1 = res_of out2 ∧
  err_of out1 = err_of out2 ∧
  state_of out1 = state_of out2 ∧
  store_writes (trace_of out1) = store_writes (trace_of out2) ∧
  resolver_calls (trace_of out1) ≡ₚ resolver_calls (trace_of out2).
Proof.
  split; [by_compute|].
  apply (Reconcile_order_independent apiserver Scenario.childName
           canonical_range reversed_range Scenario.req Scenario.scenarioC);
    by intros.
Defined.

(** X8.  No error is returned silently: whenever [Reconcile] returns an error,
    the cycle ends with the store call that failed with this very error,
    followed by the log of this error under the message of that call: "unable
    to fetch cloud secret" for the parent lookup, "unable to create child
    secret" for the create, "unable to delete child secret" for the delete and
    "unable to update child secret" for the update. *)
Theorem Reconcile_error_is_logged {S} (h : Handler S) childName rng req s failure :
  let out := run h (Reconcile childName rng req) s in
  err_of out = Some failure →
  ∃ front failed what,
    trace_of out = front ++ [failed; ev (LogError failure what []) tt] ∧
    ( (failed = ev (GetCloudSecret (ctrl.NamespacedName req)) (Err failure) ∧
       what = "unable to fetch cloud secret")
    ∨ (∃ obj, failed = ev (Create obj) (Err failure) ∧
              what = "unable to create child secret")
    ∨ (∃ obj, failed = ev (Delete obj) (Some failure) ∧
              what = "unable to delete child secret")
    ∨ (∃ obj, failed = ev (Update obj) (Some failure) ∧
              what = "unable to update child secret") ).
Proof.
  intros out; subst out.
  run_cases childName rng h req s Hout Hrep.
  outcome_inv Hout; intros Herr.
  - exists [], (ev (GetCloudSecret (ctrl.NamespacedName req)) (Err failure)),
      "unable to fetch cloud secret".
    cbn in Herr. destruct (client.IsNotFound e); [done|].
    injection Herr as ->. split; [done|by left].
  - inversion Hens; simplify_eq.
    eexists [_; _; _], _, _. split; [done|]. right; left. by eexists.
  - done.
  - destruct ans; cbn in Hfin; simplify_eq.
    eexists (_ :: pre ++ resolve_trace atts), _, _. cbn [closing snd].
    split; [by rewrite <- app_comm_cons, <- app_assoc|].
    right; right; left. by eexists.
  - destruct ans; cbn in Hfin; simplify_eq.
    eexists (_ :: pre ++ resolve_trace atts ++ [_]), _, _. cbn [closing snd].
    split; [by rewrite <- app_comm_cons, <- !app_assoc|].
    right; right; right. by eexists.
Qed.

(** Scenario A with a failing update: the cycle ends with the failed update
    and the log of its error. *)
Lemma Reconcile_error_is_logged_witness :
  err_of (Scenario.run_cycle Scenario.update_fails) = Some Scenario.ioError ∧
  ∃ front failed what,
    trace_of (Scenario.run_cycle Scenario.update_fails)
      = front ++ [failed; ev (LogError Scenario.ioError what []) tt] ∧
    ( (failed = ev (GetCloudSecret (ctrl.NamespacedName Scenario.req))
                   (Err Scenario.ioError) ∧
       what = "unable to fetch cloud secret")
    ∨ (∃ obj, failed = ev (Create obj) (Err Scenario.ioError) ∧
              what = "unable to create child secret")
    ∨ (∃ obj, failed = ev (Delete obj) (Some Scenario.ioError) ∧
              what = "unable to delete child secret")
    ∨ (∃ obj, failed = ev (Update obj) (Some Scenario.ioError) ∧
              what = "unable to update child secret") ).
Proof.
  split; [by_compute|].
  apply (Reconcile_error_is_logged apiserver Scenario.childName canonical_range
           Scenario.req Scenario.update_fails Scenario.ioError).
  by_compute.
Defined.

(** X9.  Against the in-memory store a failed cycle is made good by the next
    one.  Whatever store failures a cycle meets, a following cycle that meets
    none leaves the store exactly as a cycle without failures would have left
    the original store, the resolver answering the same throughout: a failure
    leaves nothing behind that a later cycle does not repair. *)
Theorem cycle_recovers childName (rng1 rng2 rng3 : MapRange) req w flt :
  let clean := with_fault (λ _, None) in
  let failed := cycle childName rng1 req (with_fault flt w) in
  state_of (cycle childName rng2 req (clean (state_of failed)))
  = state_of (cycle childName rng3 req (clean w)).
Proof.
  intros clean failed; subst clean failed.
  rewrite !cycle_state.
  destruct (cloudSecrets w !! ctrl.NamespacedName req) as [cs|] eqn:HC.
  2:{ by rewrite (reconcile_world_absent _ _ (with_fault flt w)). }
  destruct (reconcile_world_effect childName req (with_fault flt w) cs HC)
    as (HC1 & HG1 & Hch).
  cbn [with_fault cloudSecrets gcpSecrets childSecrets] in *.
  destruct (reconcile_world childName req (with_fault flt w)).2 as [C1 A1 G1 f1].
  cbn in HC1, HG1, Hch. subst C1 G1.
  rewrite !(reconcile_world_clean _ _ _ cs) by done.
  unfold set_childSecrets, with_fault; cbn. f_equal.
  destruct Hch as [->|[[HA ->]| ->]].
  - done.
  - by apply settled_created.
  - apply settled_idempotent.
Qed.
